(** * gtask: a task group with bounded concurrency

    A shallow embedding of [gtask.Group]: the group as a record, its
    helpers as functions on it, [Go], [Wait] and [runTask] as the steps of
    the goroutines that execute them, and the program as a pool of such
    goroutines that a scheduler interleaves.  The properties of the group
    are proved for every schedule, most of them from one invariant of the
    reachable states.

    Conventions: [int] is 64 bits wide and wraps; an error is the text of
    its message; a task is what it does when called (the error it returns
    or the payload of its panic); [sync.WaitGroup], [sync.Once] and the
    channel are their counters and flags. *)

From Stdlib Require Import ZArith String Lia.
From stdpp Require Import base option list strings gmap.

Local Open Scope Z_scope.

(** ** Go values *)

(** Go's [int] on the 64-bit targets: two's complement, [++] wraps. *)
Definition int_modulus : Z := 2 ^ 64.
Definition int_half : Z := 2 ^ 63.

Definition wrap (z : Z) : Z := (z + int_half) mod int_modulus - int_half.

Definition int_add (a b : Z) : Z := wrap (a + b).
Definition int_incr (a : Z) : Z := int_add a 1.

(** An [error] value is represented by the text its [Error()] method
    returns; the interface value [nil] is [None]. *)
Definition error := string.

(** A slice of errors: [None] is the nil slice, [Some l] an allocated one. *)
Definition slice := option (list error).

Definition elems (s : slice) : list error := default [] s.
Definition len (s : slice) : Z := Z.of_nat (length (elems s)).
Definition append (s : slice) (e : error) : slice := Some (elems s ++ [e]).

(** A buffered channel of [struct{}]: only its capacity and the number of
    buffered elements matter.  A nil channel is [None]. *)
Record chan := { cap : Z; buf : Z }.

Definition make_chan (n : Z) : chan := {| cap := n; buf := 0 |}.

(** [ch <- struct{}{}]: [None] when the sender is blocked (buffer full, or
    nil channel, on which a send blocks forever). *)
Definition chan_send (ch : option chan) : option (option chan) :=
  match ch with
  | None => None
  | Some c => if buf c <? cap c
              then Some (Some {| cap := cap c; buf := buf c + 1 |})
              else None
  end.

(** [<-ch]: [None] when the receiver is blocked (buffer empty, or nil
    channel). *)
Definition chan_recv (ch : option chan) : option (option chan) :=
  match ch with
  | None => None
  | Some c => if 0 <? buf c
              then Some (Some {| cap := cap c; buf := buf c - 1 |})
              else None
  end.

(** ** The Group *)

(** [mu] has no field of its own: every helper below runs its whole body
    holding [g.mu], so each is one atomic transition of the group.  [wg]
    is the WaitGroup counter and [once] the done flag of [sync.Once]. *)
Record Group := {
  Concurrent : Z;
  AllowSomeFail : bool;
  wg : Z;
  semaphore : option chan;
  errors : slice;
  successCount : Z;
  totalTasks : Z;
  once : bool
}.

(** The zero value [&Group{Concurrent: c, AllowSomeFail: a}]. *)
Definition new_group (c : Z) (a : bool) : Group :=
  {| Concurrent := c; AllowSomeFail := a; wg := 0; semaphore := None;
     errors := None; successCount := 0; totalTasks := 0; once := false |}.

Definition with_wg (g : Group) (n : Z) : Group :=
  {| Concurrent := Concurrent g; AllowSomeFail := AllowSomeFail g; wg := n;
     semaphore := semaphore g; errors := errors g;
     successCount := successCount g; totalTasks := totalTasks g;
     once := once g |}.

Definition with_semaphore (g : Group) (ch : option chan) : Group :=
  {| Concurrent := Concurrent g; AllowSomeFail := AllowSomeFail g; wg := wg g;
     semaphore := ch; errors := errors g;
     successCount := successCount g; totalTasks := totalTasks g;
     once := once g |}.

Definition with_errors (g : Group) (s : slice) : Group :=
  {| Concurrent := Concurrent g; AllowSomeFail := AllowSomeFail g; wg := wg g;
     semaphore := semaphore g; errors := s;
     successCount := successCount g; totalTasks := totalTasks g;
     once := once g |}.

Definition with_successCount (g : Group) (n : Z) : Group :=
  {| Concurrent := Concurrent g; AllowSomeFail := AllowSomeFail g; wg := wg g;
     semaphore := semaphore g; errors := errors g;
     successCount := n; totalTasks := totalTasks g;
     once := once g |}.

Definition with_totalTasks (g : Group) (n : Z) : Group :=
  {| Concurrent := Concurrent g; AllowSomeFail := AllowSomeFail g; wg := wg g;
     semaphore := semaphore g; errors := errors g;
     successCount := successCount g; totalTasks := n;
     once := once g |}.

Definition with_once (g : Group) (b : bool) : Group :=
  {| Concurrent := Concurrent g; AllowSomeFail := AllowSomeFail g; wg := wg g;
     semaphore := semaphore g; errors := errors g;
     successCount := successCount g; totalTasks := totalTasks g;
     once := b |}.

(** [g.once.Do(func() { ... })] at the head of [Go]: the closure runs only
    while the flag is unset. *)
Definition once_Do (g : Group) : Group :=
  if once g then g
  else
    let g1 := with_errors g (Some []) in
    let g2 := if 0 <? Concurrent g1
              then with_semaphore g1 (Some (make_chan (Concurrent g1)))
              else g1 in
    with_once g2 true.

Definition addError (g : Group) (err : error) : Group :=
  with_errors g (append (errors g) err).

Definition addTotalTasks (g : Group) : Group :=
  with_totalTasks g (int_incr (totalTasks g)).

Definition getHasFailed (g : Group) : bool := 0 <? len (errors g).

Definition addSuccessCount (g : Group) : Group :=
  with_successCount g (int_incr (successCount g)).

Definition getStats (g : Group) : Z * Z * slice :=
  (successCount g, totalTasks g, errors g).

(** [wg.Add(delta)]; [None] is the runtime panic
    "sync: negative WaitGroup counter".  [wg.Done()] is [wg.Add(-1)]. *)
Definition wg_Add (g : Group) (delta : Z) : option Group :=
  if wg g + delta <? 0 then None else Some (with_wg g (wg g + delta)).

Definition wg_Done (g : Group) : option Group := wg_Add g (-1).

(** [wg.Wait()] returns once the counter is zero; [false] means the caller
    stays blocked. *)
Definition wg_Wait_ready (g : Group) : bool := wg g =? 0.

(** The loop of [joinErrors]: [errMsg] is the accumulator, a separator is
    added when the accumulator is not the empty string. *)
Fixpoint join_loop (errMsg : string) (errs : list error) : string :=
  match errs with
  | [] => errMsg
  | err :: rest =>
      let errMsg := if String.eqb errMsg "" then errMsg else errMsg +:+ "; " in
      join_loop (errMsg +:+ err) rest
  end.

(** [fmt.Errorf("%s", errMsg)] is the error whose text is [errMsg]. *)
Definition joinErrors (g : Group) : option error :=
  if len (errors g) =? 0 then None
  else Some (join_loop "" (elems (errors g))).

(** [fmt.Errorf("task panic: %v", r)], the payload given by its [%v]
    rendering. *)
Definition panic_error (r : string) : error := "task panic: " +:+ r.

(** [Wait], read sequentially: [None] while [g.wg.Wait()] blocks.  Both
    arms of the [AllowSomeFail] test return the same pair. *)
Definition Wait (g : Group) : option (Z * option error) :=
  if wg_Wait_ready g then
    let '(successCount, _, errors) := getStats g in
    if len errors =? 0 then Some (successCount, None)
    else if AllowSomeFail g then Some (successCount, joinErrors g)
    else Some (successCount, joinErrors g)
  else None.

(** ** Goroutines *)

(** The callers of [Go] and [Wait] and the goroutines started by [Go] run
    interleaved.  Each advances from control point to control point; a step
    between two control points is one access to the group (a helper run
    under [g.mu], an operation of the WaitGroup, of the channel or of
    [sync.Once]) and is atomic. *)

(** What a submitted [task func() error] does when it is called: it returns
    an error value (possibly nil), it panics (the payload is given by its
    [%v] rendering), or it ends its goroutine with [runtime.Goexit()]: the
    deferred calls then run as they do for a panic, but nothing is
    panicking.  The group never looks into a task, so a task is
    represented by this outcome; tasks that never come back (they block or
    loop for ever) are not modelled. *)
Inductive outcome :=
| Return (err : option error)
| Panics (r : string)
| Goexit.

(** [recover()] in the deferred closure of [runTask]: the payload while
    the goroutine is panicking (never nil from Go 1.21 on, which the
    repository requires), nil otherwise. *)
Definition recover (task : outcome) : option string :=
  match task with
  | Panics r => Some r
  | Return _ | Goexit => None
  end.

(** Control points of a caller inside [Go]. *)
Inductive go_pc :=
| G_once                  (* g.once.Do(...) *)
| G_check                 (* if !g.AllowSomeFail && g.getHasFailed() *)
| G_addTotal              (* g.addTotalTasks() *)
| G_wgAdd                 (* g.wg.Add(1) *)
| G_branch                (* if g.Concurrent == 0 *)
| G_acquire               (* g.semaphore <- struct{}{} *)
| G_launch                (* go func() { ... }() *)
| G_denied                (* returned from the admission check *)
| G_launched (gated : bool). (* returned after the go statement *)

(** Control points of the goroutine started by [Go]; [gated] goroutines
    are those started on the semaphore path. *)
Inductive run_pc :=
| R_enter                 (* started, task not yet called *)
| R_task                  (* inside task() *)
| R_body                  (* task returned: if err != nil ... *)
| R_recover               (* deferred func() { recover() ... } *)
| R_done                  (* deferred g.wg.Done() *)
| R_release               (* deferred <-g.semaphore *)
| R_exited.

(** Control points of a caller inside [Wait]. *)
Inductive wait_pc :=
| W_wait                  (* g.wg.Wait() *)
| W_stats                 (* g.getStats(); if len(errors) == 0 *)
| W_join (n : Z)          (* if g.AllowSomeFail ...; g.joinErrors() *)
| W_returned (n : Z) (err : option error).

Inductive thread :=
| GoCall (task : outcome) (pc : go_pc)
| Runner (gated : bool) (task : outcome) (pc : run_pc)
| WaitCall (pc : wait_pc)
| Panicked (was : thread).   (* died of a panic nobody recovered *)

#[global] Instance outcome_eq_dec : EqDecision outcome.
Proof. solve_decision. Defined.
#[global] Instance go_pc_eq_dec : EqDecision go_pc.
Proof. solve_decision. Defined.
#[global] Instance run_pc_eq_dec : EqDecision run_pc.
Proof. solve_decision. Defined.
#[global] Instance wait_pc_eq_dec : EqDecision wait_pc.
Proof. solve_decision. Defined.
#[global] Instance thread_eq_dec : EqDecision thread.
Proof. solve_decision. Defined.

(** What a step did to the group, recorded for the history of the run. *)
Inductive event :=
| EvInit                  (* the closure of once.Do ran *)
| EvDenied                (* Go returned from the admission check *)
| EvTotal                 (* totalTasks++ *)
| EvAdd                   (* wg.Add(1) *)
| EvAcquire               (* a token was put into the semaphore *)
| EvSpawn                 (* the go statement *)
| EvInvoke                (* task() was called *)
| EvSuccess               (* successCount++ *)
| EvFailure (msg : error) (* append(g.errors, ...) *)
| EvDone                  (* wg.Done() *)
| EvRelease.              (* a token was taken out of the semaphore *)

Definition step_result : Type := Group * thread * list thread * list event.

(** One step of a caller inside [Go]. *)
Definition go_step (g : Group) (task : outcome) (pc : go_pc) : option step_result :=
  match pc with
  | G_once =>
      Some (once_Do g, GoCall task G_check, [],
            if once g then [] else [EvInit])
  | G_check =>
      if negb (AllowSomeFail g) && getHasFailed g
      then Some (g, GoCall task G_denied, [], [EvDenied])
      else Some (g, GoCall task G_addTotal, [], [])
  | G_addTotal =>
      Some (addTotalTasks g, GoCall task G_wgAdd, [], [EvTotal])
  | G_wgAdd =>
      match wg_Add g 1 with
      | Some g' => Some (g', GoCall task G_branch, [], [EvAdd])
      | None => Some (g, Panicked (GoCall task pc), [], [])
      end
  | G_branch =>
      if Concurrent g =? 0
      then Some (g, GoCall task (G_launched false),
                 [Runner false task R_enter], [EvSpawn])
      else Some (g, GoCall task G_acquire, [], [])
  | G_acquire =>
      match chan_send (semaphore g) with
      | Some ch => Some (with_semaphore g ch, GoCall task G_launch, [], [EvAcquire])
      | None => None
      end
  | G_launch =>
      Some (g, GoCall task (G_launched true),
            [Runner true task R_enter], [EvSpawn])
  | G_denied | G_launched _ => None
  end.

(** One step of the goroutine: [runTask] with its two deferred calls, and
    around it, for a gated goroutine, the deferred receive. *)
Definition run_step (g : Group) (gated : bool) (task : outcome) (pc : run_pc)
  : option step_result :=
  match pc with
  | R_enter => Some (g, Runner gated task R_task, [], [EvInvoke])
  | R_task =>
      match task with
      | Return _ => Some (g, Runner gated task R_body, [], [])
      | Panics _ | Goexit => Some (g, Runner gated task R_recover, [], [])
      end
  | R_body =>
      match task with
      | Return (Some err) =>
          Some (addError g err, Runner gated task R_recover, [], [EvFailure err])
      | Return None =>
          Some (addSuccessCount g, Runner gated task R_recover, [], [EvSuccess])
      | Panics _ | Goexit => (* not reached: the body is skipped *)
          Some (g, Runner gated task R_recover, [], [])
      end
  | R_recover =>
      match recover task with
      | Some r =>
          Some (addError g (panic_error r), Runner gated task R_done, [],
                [EvFailure (panic_error r)])
      | None => Some (g, Runner gated task R_done, [], [])
      end
  | R_done =>
      match wg_Done g with
      | Some g' =>
          Some (g', Runner gated task (if gated then R_release else R_exited),
                [], [EvDone])
      | None => Some (g, Panicked (Runner gated task pc), [], [])
      end
  | R_release =>
      match chan_recv (semaphore g) with
      | Some ch => Some (with_semaphore g ch, Runner gated task R_exited, [], [EvRelease])
      | None => None
      end
  | R_exited => None
  end.

(** One step of a caller inside [Wait]. *)
Definition wait_step (g : Group) (pc : wait_pc) : option step_result :=
  match pc with
  | W_wait =>
      if wg_Wait_ready g then Some (g, WaitCall W_stats, [], []) else None
  | W_stats =>
      let '(successCount, _, errors) := getStats g in
      if len errors =? 0
      then Some (g, WaitCall (W_returned successCount None), [], [])
      else Some (g, WaitCall (W_join successCount), [], [])
  | W_join n =>
      if AllowSomeFail g
      then Some (g, WaitCall (W_returned n (joinErrors g)), [], [])
      else Some (g, WaitCall (W_returned n (joinErrors g)), [], [])
  | W_returned _ _ => None
  end.

(** A step of any goroutine: the new group, the goroutine afterwards, the
    goroutines it started, and the events; [None] when it is blocked or has
    nothing left to run. *)
Definition tstep (g : Group) (t : thread) : option step_result :=
  match t with
  | GoCall task pc => go_step g task pc
  | Runner gated task pc => run_step g gated task pc
  | WaitCall pc => wait_step g pc
  | Panicked _ => None
  end.

(** ** The program: a group and the goroutines around it *)

Record state := {
  grp : Group;
  pool : list thread;
  trace : list (nat * event)
}.

(** The scheduler's moves: some goroutine of the client calls [Go] or
    [Wait], or goroutine [i] of the pool runs one step. *)
Inductive action :=
| CallGo (task : outcome)
| CallWait
| Run (i : nat).

Definition step (s : state) (a : action) : option state :=
  match a with
  | CallGo task =>
      Some {| grp := grp s; pool := pool s ++ [GoCall task G_once];
              trace := trace s |}
  | CallWait =>
      Some {| grp := grp s; pool := pool s ++ [WaitCall W_wait];
              trace := trace s |}
  | Run i =>
      match pool s !! i with
      | None => None
      | Some t =>
          match tstep (grp s) t with
          | None => None
          | Some (g', t', new, evs) =>
              Some {| grp := g'; pool := <[i:=t']> (pool s) ++ new;
                      trace := trace s ++ map (pair i) evs |}
          end
      end
  end.

Fixpoint exec (s : state) (acts : list action) : option state :=
  match acts with
  | [] => Some s
  | a :: rest =>
      match step s a with
      | Some s' => exec s' rest
      | None => None
      end
  end.

Definition init (c : Z) (a : bool) : state :=
  {| grp := new_group c a; pool := []; trace := [] |}.

Definition reachable (c : Z) (a : bool) (s : state) : Prop :=
  ∃ acts, exec (init c a) acts = Some s.


(** ** Bookkeeping over the pool *)

(** Sum of a weight over the goroutines of a pool. *)
Definition total (w : thread → Z) (l : list thread) : Z :=
  foldr (λ t acc, w t + acc) 0 l.

(** The goroutine owes one [wg.Done()]: from [wg.Add(1)] in [Go], through
    the go statement, to the deferred [wg.Done()] of [runTask]. *)
Fixpoint wg_share (t : thread) : Z :=
  match t with
  | GoCall _ (G_branch | G_acquire | G_launch) => 1
  | Runner _ _ (R_enter | R_task | R_body | R_recover | R_done) => 1
  | Panicked t => wg_share t
  | _ => 0
  end.

(** The goroutine holds a token of the semaphore: from the send in [Go],
    through the go statement, to the deferred receive. *)
Fixpoint holding (t : thread) : Z :=
  match t with
  | GoCall _ G_launch => 1
  | Runner true _ (R_enter | R_task | R_body | R_recover | R_done | R_release) => 1
  | Panicked t => holding t
  | _ => 0
  end.

(** The goroutine carries a unit that [totalTasks] has counted. *)
Fixpoint tallied (t : thread) : Z :=
  match t with
  | GoCall _ (G_wgAdd | G_branch | G_acquire | G_launch) => 1
  | Runner _ _ _ => 1
  | Panicked t => tallied t
  | _ => 0
  end.

(** The unit of the goroutine has been counted in [successCount]. *)
Fixpoint succeeded (t : thread) : Z :=
  match t with
  | Runner _ (Return None) (R_recover | R_done | R_release | R_exited) => 1
  | Panicked t => succeeded t
  | _ => 0
  end.

(** The unit of the goroutine has been appended to [errors]. *)
Fixpoint failed (t : thread) : Z :=
  match t with
  | Runner _ (Return (Some _)) (R_recover | R_done | R_release | R_exited) => 1
  | Runner _ (Panics _) (R_done | R_release | R_exited) => 1
  | Panicked t => failed t
  | _ => 0
  end.

(** The unit of the goroutine ended with [runtime.Goexit()] and its
    [wg.Done()] has run: it is counted in [totalTasks], and neither in
    [successCount] nor in [errors]. *)
Fixpoint unreported (t : thread) : Z :=
  match t with
  | Runner _ Goexit (R_release | R_exited) => 1
  | Panicked t => unreported t
  | _ => 0
  end.

(** The unit of the goroutine is in flight: counted in [totalTasks], and
    its [wg.Done()] has not run yet. *)
Fixpoint in_flight (t : thread) : Z :=
  match t with
  | GoCall _ (G_wgAdd | G_branch | G_acquire | G_launch) => 1
  | Runner _ _ (R_enter | R_task | R_body | R_recover | R_done) => 1
  | Panicked t => in_flight t
  | _ => 0
  end.


Definition after_done (pc : run_pc) : bool :=
  match pc with R_release | R_exited => true | _ => false end.
Definition after_release (pc : run_pc) : bool :=
  match pc with R_exited => true | _ => false end.

(** The goroutine has nothing left to run: its call returned, or it ran to
    its end. *)
Definition finished (t : thread) : bool :=
  match t with
  | GoCall _ (G_denied | G_launched _) => true
  | Runner _ _ R_exited => true
  | WaitCall (W_returned _ _) => true
  | _ => false
  end.

(** Upper bound on the steps the goroutine and the goroutine it may start
    still take. *)
Definition fuel (t : thread) : nat :=
  match t with
  | GoCall _ pc =>
      match pc with
      | G_once => 14 | G_check => 13 | G_addTotal => 12 | G_wgAdd => 11
      | G_branch => 10 | G_acquire => 9 | G_launch => 8
      | G_denied | G_launched _ => 0
      end
  | Runner _ _ pc =>
      match pc with
      | R_enter => 7 | R_task => 6 | R_body => 5 | R_recover => 4
      | R_done => 3 | R_release => 1 | R_exited => 0
      end
  | WaitCall pc =>
      match pc with
      | W_wait => 3 | W_stats => 2 | W_join _ => 1 | W_returned _ _ => 0
      end
  | Panicked _ => 0
  end%nat.

Definition pool_fuel (l : list thread) : nat :=
  foldr (λ t acc, (fuel t + acc)%nat) 0%nat l.

Definition sem_buf (ch : option chan) : Z :=
  match ch with Some c => buf c | None => 0 end.

Definition is_init (e : event) : bool :=
  match e with EvInit => true | _ => false end.
Definition is_success (e : event) : bool :=
  match e with EvSuccess => true | _ => false end.
Definition is_failure (e : event) : bool :=
  match e with EvFailure _ => true | _ => false end.
Definition is_done (e : event) : bool :=
  match e with EvDone => true | _ => false end.
Definition is_release (e : event) : bool :=
  match e with EvRelease => true | _ => false end.
Definition is_add (e : event) : bool :=
  match e with EvAdd => true | _ => false end.
Definition is_acquire (e : event) : bool :=
  match e with EvAcquire => true | _ => false end.
Definition is_total (e : event) : bool :=
  match e with EvTotal => true | _ => false end.

(** The events of goroutine [i] in a trace, the one-time setup left out
    (it belongs to the group, not to the call that happened to run it). *)
Definition events_of (i : nat) (tr : list (nat * event)) : list event :=
  omap (λ p : nat * event,
          if decide (p.1 = i)
          then (if is_init p.2 then None else Some p.2)
          else None) tr.

Definition count (p : event → bool) (evs : list event) : nat :=
  length (List.filter p evs).

(** The texts appended to [errors], in the order of the trace. *)
Definition failures (evs : list event) : list error :=
  omap (λ e, match e with EvFailure msg => Some msg | _ => None end) evs.

(** What [runTask] records for a task between the return of [task()] and
    its deferred calls, and what its deferred closure records. *)
Definition reported (task : outcome) : list event :=
  match task with
  | Return None => [EvSuccess]
  | Return (Some err) => [EvFailure err]
  | Panics _ | Goexit => []
  end.

Definition recovered (task : outcome) : list event :=
  match recover task with
  | Some r => [EvFailure (panic_error r)]
  | None => []
  end.

(** How many times [runTask] reports a unit, as a success or as a
    failure. *)
Definition reports (task : outcome) : nat :=
  match task with
  | Return _ | Panics _ => 1
  | Goexit => 0
  end.

(** The events a goroutine has behind it at each control point. *)
Fixpoint history (t : thread) : list event :=
  match t with
  | GoCall _ pc =>
      match pc with
      | G_once | G_check | G_addTotal => []
      | G_wgAdd => [EvTotal]
      | G_branch | G_acquire => [EvTotal; EvAdd]
      | G_launch => [EvTotal; EvAdd; EvAcquire]
      | G_denied => [EvDenied]
      | G_launched gated =>
          [EvTotal; EvAdd] ++ (if gated then [EvAcquire] else []) ++ [EvSpawn]
      end
  | Runner gated task pc =>
      match pc with
      | R_enter => []
      | R_task | R_body => [EvInvoke]
      | R_recover => EvInvoke :: reported task
      | R_done => EvInvoke :: reported task ++ recovered task
      | R_release => EvInvoke :: reported task ++ recovered task ++ [EvDone]
      | R_exited =>
          EvInvoke :: reported task ++ recovered task ++ [EvDone]
            ++ (if gated then [EvRelease] else [])
      end
  | WaitCall _ => []
  | Panicked t => history t
  end.

(** Goroutines as [Go] makes them: the semaphore path is taken exactly when
    [Concurrent] is not zero, and a token is only ever held under a
    positive bound. *)
Fixpoint wf_thread (c : Z) (t : thread) : Prop :=
  match t with
  | GoCall _ G_acquire => c ≠ 0
  | GoCall _ G_launch => 0 < c
  | GoCall _ (G_launched gated) => if gated then 0 < c else c = 0
  | Runner gated _ pc => if gated then 0 < c else c = 0 ∧ pc ≠ R_release
  | Panicked t => wf_thread c t
  | _ => True
  end.

(** The goroutine is past the one-time setup of [Go]. *)
Fixpoint started (t : thread) : bool :=
  match t with
  | GoCall _ G_once => false
  | WaitCall _ => false
  | Panicked t => started t
  | _ => true
  end.

(** The group as the one-time setup leaves it. *)
Definition shaped (c : Z) (a : bool) (g : Group) : Prop :=
  Concurrent g = c ∧ AllowSomeFail g = a ∧
  (once g = false → errors g = None ∧ semaphore g = None) ∧
  (once g = true →
     errors g ≠ None ∧
     match semaphore g with
     | Some ch => 0 < c ∧ cap ch = c ∧ buf ch ≤ c
     | None => c ≤ 0
     end).

(** Control points of [Go] up to the admission check and its early return. *)
Definition before_admission (pc : go_pc) : bool :=
  match pc with G_once | G_check | G_denied => true | _ => false end.

(** Moves that are no call to [Go]. *)
Definition no_go (act : action) : bool :=
  match act with CallGo _ => false | _ => true end.

(** Moves that are calls to [Wait] and steps of goroutines from [n] on. *)
Definition waits_from (n : nat) (act : action) : bool :=
  match act with
  | CallGo _ => false
  | CallWait => true
  | Run i => bool_decide (n ≤ i)%nat
  end.

(** A caller inside [Wait] on a group nobody has submitted to: it has
    not returned yet, or it has returned [(0, nil)]. *)
Definition fresh_wait (t : thread) : Prop :=
  match t with
  | WaitCall (W_wait | W_stats | W_returned 0 None) => True
  | _ => False
  end.

(** A caller inside [Wait] while the group stays [g]: what it has read so
    far is what [g] holds, what it has returned is what [Wait] returns
    on [g]. *)
Definition wait_on (g : Group) (t : thread) : Prop :=
  match t with
  | WaitCall W_wait => True
  | WaitCall W_stats => wg g = 0
  | WaitCall (W_join n) => wg g = 0 ∧ n = successCount g ∧ len (errors g) ≠ 0
  | WaitCall (W_returned n err) => Wait g = Some (n, err)
  | _ => False
  end.

Definition is_panicked (t : thread) : bool :=
  match t with Panicked _ => true | _ => false end.

(** The invariant of the program. *)
Record Inv (c : Z) (a : bool) (s : state) : Prop := {
  inv_shaped : shaped c a (grp s);
  inv_wf : Forall (wf_thread c) (pool s);
  inv_started : once (grp s) = false → Forall (λ t, started t = false) (pool s);
  inv_wg : wg (grp s) = total wg_share (pool s);
  inv_sem : sem_buf (semaphore (grp s)) = total holding (pool s);
  inv_total : totalTasks (grp s) = wrap (total tallied (pool s));
  inv_success : successCount (grp s) = wrap (total succeeded (pool s));
  inv_errors : len (errors (grp s)) = total failed (pool s);
  inv_tids : Forall (λ p, (p.1 < length (pool s))%nat) (trace s);
  inv_history : ∀ i t, pool s !! i = Some t → events_of i (trace s) = history t;
  inv_trace_success :
    successCount (grp s) = wrap (Z.of_nat (count is_success (trace s).*2));
  inv_trace_errors : elems (errors (grp s)) = failures (trace s).*2;
  inv_trace_total :
    totalTasks (grp s) = wrap (Z.of_nat (count is_total (trace s).*2));
  inv_trace_wg :
    wg (grp s) = Z.of_nat (count is_add (trace s).*2)
                 - Z.of_nat (count is_done (trace s).*2);
  inv_trace_sem :
    sem_buf (semaphore (grp s)) =
      Z.of_nat (count is_acquire (trace s).*2)
      - Z.of_nat (count is_release (trace s).*2);
  inv_trace_init :
    count is_init (trace s).*2 = if once (grp s) then 1%nat else 0%nat;
  inv_trace_head :
    if once (grp s) then ∃ i rest, trace s = (i, EvInit) :: rest else trace s = [];
  inv_alive : Forall (λ t, is_panicked t = false) (pool s)
}.

(** ** Runs used as examples *)

(** Goroutine [i] runs [n] steps in a row. *)
Definition runs (i n : nat) : list action := replicate n (Run i).

(** The final state of a run from a fresh group (the fresh group itself
    should the run get stuck). *)
Definition run_from (c : Z) (a : bool) (acts : list action) : state :=
  default (init c a) (exec (init c a) acts).

(** A scheduler: the first goroutine of the pool that can run, runs. *)
Fixpoint first_enabled (g : Group) (l : list thread) (i : nat) : option nat :=
  match l with
  | [] => None
  | t :: l' =>
      match tstep g t with
      | Some _ => Some i
      | None => first_enabled g l' (S i)
      end
  end.

Fixpoint run_all (n : nat) (s : state) : state :=
  match n with
  | O => s
  | S n' =>
      match first_enabled (grp s) (pool s) 0 with
      | Some i =>
          match step s (Run i) with
          | Some s' => run_all n' s'
          | None => s
          end
      | None => s
      end
  end.

(** The calls of a client goroutine that submits the tasks one after the
    other and then waits, each unit observed to complete before the next
    call (scenario DisallowSomeFail of gtask_test.go). *)
Fixpoint submit_in_turn (tasks : list outcome) (s : state) : state :=
  match tasks with
  | [] => s
  | task :: rest =>
      submit_in_turn rest
        (run_all (pool_fuel (pool s) + 14)
           {| grp := grp s; pool := pool s ++ [GoCall task G_once];
              trace := trace s |})
  end.

(** The calls of a client goroutine that submits all the tasks, lets the
    pool run and waits. *)
Definition submit_all (tasks : list outcome) (s : state) : state :=
  let s1 := {| grp := grp s; pool := pool s ++ map (λ task, GoCall task G_once) tasks;
               trace := trace s |} in
  run_all (pool_fuel (pool s1)) s1.

(** Two units succeed, one returns an error, one panics; no bound.  The
    callers are goroutines 0 to 3, their units 4 to 7. *)
Definition mixed_run : list action :=
  [CallGo (Return None); CallGo (Return (Some "E1"));
   CallGo (Return None); CallGo (Panics "P1")]
  ++ runs 0 5 ++ runs 1 5 ++ runs 2 5 ++ runs 3 5
  ++ runs 4 5 ++ runs 5 5 ++ runs 6 5 ++ runs 7 4.

Definition mixed_state : state := run_from 0 false mixed_run.

(** A first unit fails with the empty message, a second one with ["a"],
    then [Wait] is called (goroutine 4). *)
Definition empty_first_run : list action :=
  [CallGo (Return (Some "")); CallGo (Return (Some "a"))]
  ++ runs 0 5 ++ runs 1 5 ++ runs 2 5 ++ runs 3 5
  ++ [CallWait] ++ runs 4 3.

Definition empty_first_state : state := run_from 0 true empty_first_run.

(** Bound 1, two units that succeed: the first caller (goroutine 0) gets
    the token and starts its unit (goroutine 2), which enters [task()]; the
    second caller (goroutine 1) arrives at the send. *)
Definition gated_run : list action :=
  [CallGo (Return None); CallGo (Return None)]
  ++ runs 0 7 ++ runs 1 5 ++ runs 2 1.

Definition gated_state : state := run_from 1 false gated_run.

(** After a unit has failed (goroutines 0 and 1), a second call to [Go]
    (goroutine 2) runs up to its return. *)
Definition after_failure_run : list action :=
  [CallGo (Return (Some "E1"))] ++ runs 0 5 ++ runs 1 5.


(** [Wait] called three times on a fresh group, the calls interleaved. *)
Definition fresh_wait_run : list action :=
  [CallWait; CallWait; Run 1; Run 0; CallWait; Run 0; Run 2; Run 1].

(** [Wait] called twice in a row. *)
Definition wait_twice : list action :=
  [CallWait] ++ runs 8 3 ++ [CallWait] ++ runs 9 3.

(** Bound -1: the caller (goroutine 0) arrives at the send. *)
Definition negative_run : list action :=
  [CallGo (Return None)] ++ runs 0 5.

Definition negative_state : state := run_from (-1) false negative_run.

(** One unit succeeds, one ends its goroutine with [runtime.Goexit()]; no
    bound.  The callers are goroutines 0 and 1, their units 2 and 3; then
    [Wait] is called (goroutine 4) and returns. *)
Definition goexit_run : list action :=
  [CallGo (Return None); CallGo Goexit]
  ++ runs 0 5 ++ runs 1 5 ++ runs 2 5 ++ runs 3 4 ++ [CallWait] ++ runs 4 2.

Definition goexit_state : state := run_from 0 false goexit_run.

(** ** More about the group *)

(** The recorded messages without the empty ones at the front. *)
Fixpoint drop_empty (errs : list error) : list error :=
  match errs with
  | [] => []
  | err :: rest => if String.eqb err "" then drop_empty rest else err :: rest
  end.

(** The goroutine is a caller inside [Go] (whatever its control point). *)
Definition is_call (t : thread) : Z :=
  match t with GoCall _ _ => 1 | _ => 0 end.

(** The caller has been through [totalTasks++]. *)
Definition counted_call (t : thread) : Z :=
  match t with
  | GoCall _ (G_wgAdd | G_branch | G_acquire | G_launch | G_launched _) => 1
  | _ => 0
  end.

(** The caller has returned after its go statement; the goroutine is one
    that a go statement started. *)
Definition launched_call (t : thread) : Z :=
  match t with GoCall _ (G_launched _) => 1 | _ => 0 end.
Definition is_unit (t : thread) : Z :=
  match t with Runner _ _ _ => 1 | _ => 0 end.

(** * The helpers of package utils *)

(** Functions passed as arguments ([f], [keyFunc], [extractor]) are taken
    to be pure and total; [==] on a comparable type is decidable equality.
    A slice is the list of its elements: that the slices [Chunk] returns
    share the array of [data], and that [Reverse] writes into the array of
    its argument, is not represented. *)
Module utils.

(** How a loop ends: it returns, it panics (an index or a slice bound out
    of range), or it is still running when the fuel is used up. *)
Inductive run (A : Type) :=
| Done (a : A)
| Panic
| OutOfFuel.
Arguments Done {A} a.
Arguments Panic {A}.
Arguments OutOfFuel {A}.

Section slices.
Context {T : Type}.

Definition length_of (data : list T) : Z := Z.of_nat (length data).

(** [data[lo:hi]]; [None] is the panic "slice bounds out of range".  The
    upper bound is checked against the length: no function below slices
    past it. *)
Definition slice_of (data : list T) (lo hi : Z) : option (list T) :=
  if (0 <=? lo) && (lo <=? hi) && (hi <=? length_of data)
  then Some (take (Z.to_nat (hi - lo)) (drop (Z.to_nat lo) data))
  else None.

(** [data[i]]; [None] is the panic "index out of range". *)
Definition index_of (data : list T) (i : Z) : option T :=
  if 0 <=? i then data !! Z.to_nat i else None.

(** [ForEach]: the items [f] was called on, and the error returned. *)
Fixpoint ForEach (data : list T) (f : T → option error) : list T * option error :=
  match data with
  | [] => ([], None)
  | item :: rest =>
      match f item with
      | Some err => ([item], Some err)
      | None => let '(called, r) := ForEach rest f in (item :: called, r)
      end
  end.

Fixpoint FindIndex_from (idx : Z) (data : list T) (f : T → bool) : Z :=
  match data with
  | [] => -1
  | item :: rest => if f item then idx else FindIndex_from (idx + 1) rest f
  end.

Definition FindIndex (data : list T) (f : T → bool) : Z :=
  FindIndex_from 0 data f.

Fixpoint Filter_loop (result data : list T) (f : T → bool) : list T :=
  match data with
  | [] => result
  | item :: rest =>
      Filter_loop (if f item then result ++ [item] else result) rest f
  end.

Definition Filter (data : list T) (f : T → bool) : list T :=
  Filter_loop [] data f.

(** The loop of [Chunk]. *)
Fixpoint Chunk_loop (fuel : nat) (data : list T) (size i : Z)
    (result : list (list T)) : run (list (list T)) :=
  match fuel with
  | O => OutOfFuel
  | S fuel' =>
      if i <? length_of data then
        let chunk :=
          if int_add i size <=? length_of data - 1
          then slice_of data i (int_add i size)
          else slice_of data i (length_of data) in
        match chunk with
        | Some c => Chunk_loop fuel' data size (int_add i size) (result ++ [c])
        | None => Panic
        end
      else Done result
  end.

Definition Chunk (fuel : nat) (data : list T) (size : Z) : run (list (list T)) :=
  if length_of data <=? size then Done [data]
  else Chunk_loop fuel data size 0 [].

(** The loop of [Reverse]; the result is the array afterwards. *)
Fixpoint Reverse_loop (fuel : nat) (data : list T) (i j : Z) : run (list T) :=
  match fuel with
  | O => OutOfFuel
  | S fuel' =>
      if i <? j then
        match index_of data i, index_of data j with
        | Some x, Some y =>
            Reverse_loop fuel'
              (<[Z.to_nat j := x]> (<[Z.to_nat i := y]> data)) (i + 1) (j - 1)
        | _, _ => Panic
        end
      else Done data
  end.

Definition Reverse (fuel : nat) (data : list T) : run (list T) :=
  Reverse_loop fuel data 0 (length_of data - 1).
End slices.

Section comparable.
Context {T : Type} `{EqDecision T}.



End comparable.

Section maps.
Context {T U : Type}.

Fixpoint Map_loop (result : list U) (data : list T) (f : T → U) : list U :=
  match data with
  | [] => result
  | item :: rest => Map_loop (result ++ [f item]) rest f
  end.

Definition Map (data : list T) (f : T → U) : list U := Map_loop [] data f.

(** [MapColumn] writes by index into a slice made with the length of its
    argument; [zero] is the zero value of [U]. *)
Fixpoint MapColumn_loop (result : list U) (i : nat) (slice : list T)
    (extractor : T → U) : list U :=
  match slice with
  | [] => result
  | v :: rest => MapColumn_loop (<[i := extractor v]> result) (S i) rest extractor
  end.

Definition MapColumn (zero : U) (slice : list T) (extractor : T → U) : list U :=
  MapColumn_loop (replicate (length slice) zero) 0 slice extractor.
End maps.

Section by_key.
Context {T K : Type} `{Countable K}.


End by_key.

(** [OnceErr]: the error and the done flag of its [sync.Once]. *)
Record OnceErr := { err : option error; once_done : bool }.

Definition OnceErr_zero : OnceErr := {| err := None; once_done := false |}.

Definition SetError (n : OnceErr) (e : option error) : OnceErr :=
  if once_done n then n else {| err := e; once_done := true |}.

Definition Error (n : OnceErr) : option error := err n.

(** [LocalCache].  A clock reading is the monotonic reading, in
    nanoseconds, that [time.Now] takes; the operations get the reading of
    the moment they run as an argument.  The cache is used by one
    goroutine at a time: the locks and the sharing of a call of [fn]
    between concurrent callers of [GetOrSet] are not represented, and [fn]
    returns (it does not panic). *)
Definition max_duration : Z := int_half - 1.
Definition min_duration : Z := - int_half.

(** [time.Since(t)] at the reading [now]: the difference of the two
    readings, a [time.Duration], which saturates. *)
Definition Since (now t : Z) : Z :=
  Z.max min_duration (Z.min max_duration (now - t)).

Record CacheItem (V : Type) := { Data : V; Timestamp : Z }.
Arguments Data {V} _.
Arguments Timestamp {V} _.

Record LocalCache (V : Type) := { items : gmap string (CacheItem V); expire : Z }.
Arguments items {V} _.
Arguments expire {V} _.

(** What a call of [GetOrSet] gives: the three values it returns, whether
    it called [fn], and the cache afterwards. *)
Record GetOrSet_result (V : Type) := {
  value : option V;
  found : bool;
  failure : option error;
  fn_called : bool;
  cache : LocalCache V
}.
Arguments value {V} _.
Arguments found {V} _.
Arguments failure {V} _.
Arguments fn_called {V} _.
Arguments cache {V} _.

Section local_cache.
Context {V : Type}.

Definition NewLocalCache (expire : Z) : LocalCache V :=
  {| items := ∅; expire := expire |}.

(** [Get]: [Some data] is [(data, true)], [None] is [(nil, false)]. *)
Definition Get (lc : LocalCache V) (now : Z) (key : string) : option V :=
  match items lc !! key with
  | Some item =>
      if Since now (Timestamp item) <? expire lc then Some (Data item) else None
  | None => None
  end.

(** [Set] ([Set] is taken in Rocq). *)
Definition Set_ (lc : LocalCache V) (now : Z) (key : string) (data : V)
    : LocalCache V :=
  {| items := <[key := {| Data := data; Timestamp := now |}]> (items lc);
     expire := expire lc |}.

Definition Delete (lc : LocalCache V) (key : string) : LocalCache V :=
  {| items := delete key (items lc); expire := expire lc |}.

Definition Clear (lc : LocalCache V) : LocalCache V :=
  {| items := ∅; expire := expire lc |}.

(** [GetOrSet]: [now] is the reading when [Get] runs, [now'] the one when
    [Set] runs; [fn] is given by the pair it returns. *)
Definition GetOrSet (lc : LocalCache V) (now now' : Z) (key : string)
    (fn : V * option error) : GetOrSet_result V :=
  match Get lc now key with
  | Some data =>
      {| value := Some data; found := true; failure := None;
         fn_called := false; cache := lc |}
  | None =>
      match fn with
      | (_, Some err) =>
          {| value := None; found := false; failure := Some err;
             fn_called := true; cache := lc |}
      | (data, None) =>
          {| value := Some data; found := false; failure := None;
             fn_called := true; cache := Set_ lc now' key data |}
      end
  end.
End local_cache.

End utils.

(** * The loggers *)

(** A [slog.Handler] as far as the multi handlers use it.  What [Enabled]
    and [Handle] of a handler return is taken to depend on their arguments
    only; [ctx] is the context, a record is given with its level. *)
Module slog.

Record Handler (C R : Type) := {
  Enabled : C → Z → bool;
  Handle : C → R → option error
}.
Arguments Enabled {C R} _ _ _.
Arguments Handle {C R} _ _ _.

End slog.

(** Package logger/handler: [MultiHandler]. *)
Module handler.

Section multi_handler.
Context {C R : Type} (record_level : R → Z).

Fixpoint Enabled (handlers : list (slog.Handler C R)) (ctx : C) (level : Z) : bool :=
  match handlers with
  | [] => false
  | h :: rest =>
      if slog.Enabled h ctx level then true else Enabled rest ctx level
  end.

(** [Handle]: the handlers whose [Handle] was called, in the order of
    the calls, and the error returned. *)
Fixpoint Handle (handlers : list (slog.Handler C R)) (ctx : C) (r : R)
    : list (slog.Handler C R) * option error :=
  match handlers with
  | [] => ([], None)
  | h :: rest =>
      if slog.Enabled h ctx (record_level r) then
        match slog.Handle h ctx r with
        | Some err => ([h], Some err)
        | None =>
            let '(called, e) := Handle rest ctx r in
            (h :: called, e)
        end
      else Handle rest ctx r
  end.
End multi_handler.

End handler.

(** Package logger: [multiHandler] and [Config]. *)
Module logger.

Section multi.
Context {C R : Type} (record_level : R → Z).

Fixpoint Enabled (handlers : list (slog.Handler C R)) (ctx : C) (level : Z) : bool :=
  match handlers with
  | [] => false
  | h :: rest =>
      if slog.Enabled h ctx level then true else Enabled rest ctx level
  end.

(** The loop of [Handle]: the handlers called, in the order of the
    calls, and the errors collected. *)
Fixpoint Handle_loop (called : list (slog.Handler C R)) (errs : list error)
    (handlers : list (slog.Handler C R)) (ctx : C) (r : R)
    : list (slog.Handler C R) * list error :=
  match handlers with
  | [] => (called, errs)
  | h :: rest =>
      if slog.Enabled h ctx (record_level r) then
        match slog.Handle h ctx r with
        | Some err => Handle_loop (called ++ [h]) (errs ++ [err]) rest ctx r
        | None => Handle_loop (called ++ [h]) errs rest ctx r
        end
      else Handle_loop called errs rest ctx r
  end.

(** [%v] of a slice of errors: the messages between brackets, a space
    between two. *)
Definition format_errors (errs : list error) : string :=
  "[" +:+ String.concat " " errs +:+ "]".

Definition Handle (handlers : list (slog.Handler C R)) (ctx : C) (r : R)
    : list (slog.Handler C R) * option error :=
  let '(called, errs) := Handle_loop [] [] handlers ctx r in
  (called,
   if 0 <? Z.of_nat (length errs)
   then Some ("multi handler errors: " +:+ format_errors errs)
   else None).
End multi.

(** [Config]; [W] is the type of the writer. *)
Record Config (W : Type) := {
  FileName : string;
  RotateRule : string;
  MaxFileNum : Z;
  BufferSize : Z;
  WriterTimeout : Z;
  FlushDuration : Z;
  Level : Z;
  writer : option W
}.
Arguments FileName {W} _.
Arguments RotateRule {W} _.
Arguments MaxFileNum {W} _.
Arguments BufferSize {W} _.
Arguments WriterTimeout {W} _.
Arguments FlushDuration {W} _.
Arguments Level {W} _.
Arguments writer {W} _.

Definition Validate {W} (c : Config W) : option error :=
  if bool_decide (FileName c = "") then Some "FileName is required" else None.

Definition SetDefaults {W} (c : Config W) : Config W :=
  {| FileName := FileName c;
     RotateRule := if bool_decide (RotateRule c = "") then "1hour" else RotateRule c;
     MaxFileNum := if MaxFileNum c =? 0 then 48 else MaxFileNum c;
     BufferSize := if BufferSize c =? 0 then 4096 else BufferSize c;
     WriterTimeout := WriterTimeout c;
     FlushDuration := if FlushDuration c <=? 0 then 1000 else FlushDuration c;
     Level := Level c;
     writer := writer c |}.

End logger.
(** * Proofs *)

(** ** Arithmetic of [int] *)

Lemma wrap_add_l (a b : Z) : wrap (wrap a + b) = wrap (a + b).
Proof.
  unfold wrap.
  replace ((a + int_half) mod int_modulus - int_half + b + int_half)
    with ((a + int_half) mod int_modulus + b) by lia.
  rewrite Zplus_mod_idemp_l.
  f_equal. f_equal. lia.
Qed.

Lemma wrap_small (z : Z) : - int_half ≤ z < int_half → wrap z = z.
Proof.
  intros Hz. unfold wrap.
  rewrite Z.mod_small; [lia | unfold int_modulus, int_half in *; lia].
Qed.

(** ** Sums over the pool *)

Lemma total_app (w : thread → Z) (l k : list thread) :
  total w (l ++ k) = total w l + total w k.
Proof. induction l as [|t l IH]; simpl; lia. Qed.

Lemma total_insert (w : thread → Z) (l : list thread) (i : nat) (t t' : thread) :
  l !! i = Some t → total w (<[i:=t']> l) = total w l + w t' - w t.
Proof.
  revert i. induction l as [|x l IH]; intros [|i] Hi; simplify_eq/=; try lia.
  rewrite (IH i Hi). lia.
Qed.

Lemma total_step (w : thread → Z) (l new : list thread) (i : nat) (t t' : thread) :
  l !! i = Some t →
  total w (<[i:=t']> l ++ new) = total w l + (w t' + total w new - w t).
Proof. intros Hi. rewrite total_app, (total_insert _ _ _ _ _ Hi). lia. Qed.

Lemma total_nonneg (w : thread → Z) (l : list thread) :
  (∀ x, 0 ≤ w x) → 0 ≤ total w l.
Proof. intros Hw. induction l as [|x l IH]; simpl; [lia | specialize (Hw x); lia]. Qed.

Lemma total_elem (w : thread → Z) (l : list thread) (t : thread) :
  (∀ x, 0 ≤ w x) → t ∈ l → w t ≤ total w l.
Proof.
  intros Hw. induction 1 as [x l|x y l _ IH]; simpl.
  - pose proof (total_nonneg w l Hw). lia.
  - specialize (Hw y). lia.
Qed.

Lemma total_zero (w : thread → Z) (l : list thread) :
  (∀ x, 0 ≤ w x) → total w l = 0 → Forall (λ t, w t = 0) l.
Proof.
  intros Hw. induction l as [|x l IH]; simpl; intros H0; constructor.
  - pose proof (total_nonneg w l Hw). specialize (Hw x). lia.
  - apply IH. pose proof (total_nonneg w l Hw). specialize (Hw x). lia.
Qed.

Lemma total_le (w v : thread → Z) (l : list thread) :
  (∀ x, w x ≤ v x) → total w l ≤ total v l.
Proof. intros Hwv. induction l as [|x l IH]; simpl; [lia | specialize (Hwv x); lia]. Qed.

(** ** One step of one goroutine *)

(** Case analysis on a step: every control point, every guard. *)
Ltac unfold_group :=
  unfold once_Do, addError, addTotalTasks, addSuccessCount, getHasFailed,
    getStats, wg_Done, wg_Add, wg_Wait_ready, chan_send, chan_recv, make_chan,
    with_wg, with_semaphore, with_errors, with_successCount, with_totalTasks,
    with_once, int_incr, int_add, append, len, recover in *.

Ltac split_step H :=
  repeat match type of H with
         | context [if ?b then _ else _] => destruct b eqn:?
         | context [match ?x with _ => _ end] => destruct x eqn:?
         end;
  simplify_eq/=;
  repeat match goal with
         | H : (_ =? _) = true |- _ => apply Z.eqb_eq in H
         | H : (_ =? _) = false |- _ => apply Z.eqb_neq in H
         | H : (_ <? _) = true |- _ => apply Z.ltb_lt in H
         | H : (_ <? _) = false |- _ => apply Z.ltb_ge in H
         end.

Ltac use_shape Hs :=
  match type of Hs with
  | shaped _ _ ?g =>
      let Hc := fresh "Hc" in let Ha := fresh "Ha" in
      let Hno := fresh "Hno" in let Hyes := fresh "Hyes" in
      destruct Hs as (Hc & Ha & Hno & Hyes);
      destruct (once g) eqn:Honce;
      [ destruct (Hyes eq_refl) as [Herrs Hsem]
      | destruct (Hno eq_refl) as [Herrs Hsem] ];
      clear Hno Hyes;
      destruct (semaphore g) as [[cp bf]|] eqn:Hsemaphore;
      try discriminate
  end.

Ltac step_cases Hs H :=
  match type of H with
  | tstep _ ?t = Some _ =>
      destruct t as [[[err|]|r|] [| | | | | | | |gated] | [|] [[err|]|r|] [| | | | | |]
                    | [| |n|n err] | was];
      simpl in H; unfold_group; simpl in H; use_shape Hs; split_step H
  end.

Ltac finish :=
  repeat split; intros; simpl in *;
  repeat match goal with
         | H : _ = wrap _ |- _ => rewrite H
         | H : semaphore _ = _ |- _ => rewrite H
         | H : errors _ = _ |- _ => rewrite H
         end;
  rewrite ?wrap_add_l, ?length_app; simpl;
  try (f_equal; lia); try lia; try done.

Lemma tstep_weights c a g t g' t' new evs :
  shaped c a g → wf_thread c t →
  tstep g t = Some (g', t', new, evs) →
  wg g' = wg g + (wg_share t' + total wg_share new - wg_share t) ∧
  sem_buf (semaphore g') =
    sem_buf (semaphore g) + (holding t' + total holding new - holding t) ∧
  (∀ n, totalTasks g = wrap n →
        totalTasks g' = wrap (n + (tallied t' + total tallied new - tallied t))) ∧
  (∀ n, successCount g = wrap n →
        successCount g' = wrap (n + (succeeded t' + total succeeded new - succeeded t))) ∧
  len (errors g') = len (errors g) + (failed t' + total failed new - failed t).
Proof.
  intros Hs Hwf Hstep.
  step_cases Hs Hstep.
  all: finish.
Qed.

Lemma tstep_shaped c a g t g' t' new evs :
  shaped c a g → wf_thread c t → (once g = false → started t = false) →
  tstep g t = Some (g', t', new, evs) →
  shaped c a g' ∧ wf_thread c t' ∧ Forall (wf_thread c) new ∧
  (once g' = false → started t' = false ∧ new = [] ∧ once g = false) ∧
  (once g = true → once g' = true).
Proof.
  intros Hs Hwf Hst Hstep. unfold shaped.
  step_cases Hs Hstep.
  all: try (specialize (Hst eq_refl); discriminate).
  all: repeat split; intros; simpl in *;
    repeat match goal with
         | H : semaphore _ = _ |- _ => rewrite H
         | H : errors _ = _ |- _ => rewrite H
         end; try done; try congruence; try lia; repeat constructor;
    simpl; try lia; try done.
Qed.

Lemma tstep_history c a g t g' t' new evs :
  shaped c a g → wf_thread c t →
  tstep g t = Some (g', t', new, evs) →
  history t' = history t ++ events_of 0 (map (pair 0%nat) evs) ∧
  Forall (λ x, history x = []) new.
Proof.
  intros Hs Hwf Hstep.
  step_cases Hs Hstep.
  all: try (split; [reflexivity | repeat constructor]).
  all: try lia.
Qed.

Lemma tstep_trace c a g t g' t' new evs :
  shaped c a g →
  tstep g t = Some (g', t', new, evs) →
  (∀ n, successCount g = wrap n →
        successCount g' = wrap (n + Z.of_nat (count is_success evs))) ∧
  elems (errors g') = elems (errors g) ++ failures evs ∧
  (∀ n, totalTasks g = wrap n →
        totalTasks g' = wrap (n + Z.of_nat (count is_total evs))) ∧
  (count is_init evs + (if once g then 1 else 0) = if once g' then 1 else 0)%nat ∧
  wg g' = wg g + Z.of_nat (count is_add evs) - Z.of_nat (count is_done evs) ∧
  sem_buf (semaphore g') =
    sem_buf (semaphore g) + Z.of_nat (count is_acquire evs)
    - Z.of_nat (count is_release evs).
Proof.
  intros Hs Hstep.
  step_cases Hs Hstep.
  all: repeat split; intros; unfold count, failures; simpl; rewrite ?app_nil_r;
    repeat match goal with
         | H : _ = wrap _ |- _ => rewrite H
         | H : once _ = _ |- _ => rewrite H
         | H : errors _ = _ |- _ => rewrite H
         | H : semaphore _ = _ |- _ => rewrite H
         end; rewrite ?wrap_add_l; simpl; try (f_equal; lia); try lia; try done.
Qed.


Ltac thread_cases t H :=
  destruct t as [[[err|]|r|] [| | | | | | | |gated] | [|] [[err|]|r|] [| | | | | |]
                | [| |n|n err] | was];
  simpl in H; unfold_group; simpl in H.

Lemma wg_share_nonneg t : 0 ≤ wg_share t.
Proof. induction t as [task []|gated task []|pc|was IH]; simpl; lia. Qed.

Lemma holding_nonneg t : 0 ≤ holding t.
Proof. induction t as [task []|[] task []|pc|was IH]; simpl; lia. Qed.

Lemma in_flight_nonneg t : 0 ≤ in_flight t.
Proof. induction t as [task []|gated task []|pc|was IH]; simpl; lia. Qed.

Lemma tstep_alive g t g' t' new evs :
  wg_share t ≤ wg g →
  tstep g t = Some (g', t', new, evs) →
  is_panicked t' = false ∧ Forall (λ x, is_panicked x = false) new.
Proof.
  intros Hwg Hstep. pose proof (wg_share_nonneg t).
  thread_cases t Hstep; split_step Hstep; simpl in *;
    try lia; by repeat constructor.
Qed.

Lemma tstep_head g t g' t' new evs :
  once g = false → started t = false →
  tstep g t = Some (g', t', new, evs) →
  (once g' = false ∧ evs = []) ∨ (once g' = true ∧ evs = [EvInit]).
Proof.
  intros Ho Hst Hstep.
  thread_cases t Hstep; split_step Hstep; simpl in *; try done; auto.
Qed.

(** ** The invariant holds in every reachable state *)

Lemma events_of_app i tr tr' :
  events_of i (tr ++ tr') = events_of i tr ++ events_of i tr'.
Proof. apply omap_app. Qed.

Lemma events_of_map i j evs :
  events_of i (map (pair j) evs) =
  if decide (j = i) then events_of 0 (map (pair 0%nat) evs) else [].
Proof.
  unfold events_of. induction evs as [|e evs IH]; csimpl.
  - by destruct (decide (j = i)).
  - rewrite IH. destruct (decide (j = i)); destruct (is_init e); simpl; done.
Qed.

Lemma events_of_fresh i tr n :
  Forall (λ p : nat * event, (p.1 < n)%nat) tr → (n ≤ i)%nat → events_of i tr = [].
Proof.
  unfold events_of. induction 1 as [|[j e] tr Hj _ IH]; intros Hi; csimpl; [done|].
  rewrite (IH Hi). simpl in Hj.
  destruct (decide (j = i)); [lia | done].
Qed.

Lemma snd_map_pair (i : nat) (evs : list event) : (map (pair i) evs).*2 = evs.
Proof. induction evs as [|e evs IH]; csimpl; [done | by rewrite IH]. Qed.

Lemma count_app p evs evs' : count p (evs ++ evs') = (count p evs + count p evs')%nat.
Proof. unfold count. by rewrite List.filter_app, length_app. Qed.

Lemma failures_app evs evs' : failures (evs ++ evs') = failures evs ++ failures evs'.
Proof. apply omap_app. Qed.

Lemma Inv_init c a : Inv c a (init c a).
Proof.
  split; simpl; done.
Qed.

Lemma Inv_call c a s t :
  Inv c a s → started t = false → wf_thread c t → history t = [] →
  wg_share t = 0 → holding t = 0 → tallied t = 0 → succeeded t = 0 → failed t = 0 →
  is_panicked t = false →
  Inv c a {| grp := grp s; pool := pool s ++ [t]; trace := trace s |}.
Proof.
  intros [] Hst Hwf Hh H1 H2 H3 H4 H5 H6.
  split; simpl; rewrite ?total_app; simpl; rewrite ?H1, ?H2, ?H3, ?H4, ?H5, ?Z.add_0_r;
    try done.
  - apply Forall_app; split; [done | by constructor].
  - intros Ho. apply Forall_app; split; [auto | by constructor].
  - eapply Forall_impl; [done|]. intros p Hp; simpl in *. rewrite length_app. lia.
  - intros i x Hi. apply lookup_app_Some in Hi as [Hi | [Hlen Hi]]; [auto|].
    apply list_lookup_singleton_Some in Hi as [_ <-].
    rewrite Hh. eapply events_of_fresh; eauto.
  - apply Forall_app; split; [done | by constructor].
Qed.

Lemma Inv_run c a s i t g' t' new evs :
  Inv c a s → pool s !! i = Some t →
  tstep (grp s) t = Some (g', t', new, evs) →
  Inv c a {| grp := g'; pool := <[i:=t']> (pool s) ++ new;
             trace := trace s ++ map (pair i) evs |}.
Proof.
  intros [Hshaped HwfP Hstarted Hwg0 Hsem0 Htot0 Hsuc0 Herr0 Htids Hhist
          Htsuc0 Hterr0 Httot0 Htwg0 Htsem0 Htinit0 Hhead Halive] Hi Hstep.
  assert (Hwf : wf_thread c t) by (eapply Forall_lookup_1; eauto).
  assert (Hst : once (grp s) = false → started t = false).
  { intros Ho. eapply (Forall_lookup_1 _ _ _ _ (Hstarted Ho) Hi). }
  destruct (tstep_shaped _ _ _ _ _ _ _ _ Hshaped Hwf Hst Hstep)
    as (Hs' & Hwf' & Hnew & Hst' & Honce).
  destruct (tstep_weights _ _ _ _ _ _ _ _ Hshaped Hwf Hstep)
    as (Hwg & Hsem & Htot & Hsuc & Herr).
  destruct (tstep_history _ _ _ _ _ _ _ _ Hshaped Hwf Hstep) as (Hh & Hhnew).
  destruct (tstep_trace _ _ _ _ _ _ _ _ Hshaped Hstep)
    as (Htsuc & Hterr & Httot & Htinit & Htwg & Htsem).
  pose proof (lookup_lt_Some _ _ _ Hi) as Hlt.
  split; simpl; rewrite ?(total_step _ _ _ _ _ _ Hi), ?fmap_app, ?snd_map_pair.
  - done.
  - apply Forall_app; split; [by apply Forall_insert | done].
  - intros Ho. destruct (Hst' Ho) as (Ht' & -> & Ho').
    rewrite app_nil_r. apply Forall_insert; auto.
  - lia.
  - lia.
  - auto.
  - auto.
  - lia.
  - apply Forall_app; split.
    + eapply Forall_impl; [done|]. intros p Hp; simpl in *.
      rewrite length_app, length_insert. lia.
    + apply Forall_forall. intros p Hp. apply list_elem_of_fmap in Hp as (e & -> & _).
      simpl. rewrite length_app, length_insert. lia.
  - intros j x Hj. rewrite events_of_app, events_of_map.
    apply lookup_app_Some in Hj as [Hj | [Hlen Hj]].
    + destruct (decide (i = j)) as [->|Hne].
      * rewrite list_lookup_insert_eq in Hj by done. simplify_eq.
        rewrite (Hhist _ _ Hi). done.
      * rewrite list_lookup_insert_ne in Hj by done.
        rewrite app_nil_r. auto.
    + rewrite length_insert in Hlen. rewrite length_insert in Hj.
      destruct (decide (i = j)) as [->|Hne]; [lia|].
      rewrite app_nil_r, (events_of_fresh _ _ _ Htids Hlen).
      symmetry. eapply (Forall_lookup_1 _ _ _ _ Hhnew Hj).
  - rewrite count_app, Nat2Z.inj_add. auto.
  - rewrite failures_app. congruence.
  - rewrite count_app, Nat2Z.inj_add. auto.
  - rewrite !count_app. lia.
  - rewrite !count_app. lia.
  - rewrite count_app. rewrite Htinit0. lia.
  - destruct (once (grp s)) eqn:Ho.
    + rewrite (Honce eq_refl). destruct Hhead as (k & rest & ->). by eexists _, _.
    + rewrite Hhead. destruct (tstep_head _ _ _ _ _ _ Ho (Hst eq_refl) Hstep)
        as [[-> ->]|[-> ->]]; [done | by eexists _, _].
  - assert (Hshare : wg_share t ≤ wg (grp s)).
    { rewrite Hwg0. apply total_elem; [apply wg_share_nonneg|].
      eapply list_elem_of_lookup_2; eauto. }
    destruct (tstep_alive _ _ _ _ _ _ Hshare Hstep) as [Ht' Hn'].
    apply Forall_app; split; [by apply Forall_insert | done].
Qed.

Lemma Inv_step c a s act s' : Inv c a s → step s act = Some s' → Inv c a s'.
Proof.
  intros HI Hstep. destruct act as [task| |i]; simpl in Hstep.
  - simplify_eq. by apply Inv_call.
  - simplify_eq. by apply Inv_call.
  - destruct (pool s !! i) as [t|] eqn:Hi; [|done].
    destruct (tstep (grp s) t) as [[[[g' t'] new] evs]|] eqn:Ht; [|done].
    simplify_eq. eapply Inv_run; eauto.
Qed.

Lemma Inv_exec c a acts : ∀ s s', Inv c a s → exec s acts = Some s' → Inv c a s'.
Proof.
  induction acts as [|act acts IH]; intros s s' HI Hex; simpl in Hex.
  - by simplify_eq.
  - destruct (step s act) as [s1|] eqn:Hs; [|done].
    eapply IH; [|done]. eapply Inv_step; eauto.
Qed.

Lemma Inv_reachable c a s : reachable c a s → Inv c a s.
Proof. intros [acts Hex]. eapply Inv_exec; [apply Inv_init | done]. Qed.

(** ** Executions *)

Lemma exec_app s acts acts' :
  exec s (acts ++ acts') =
  match exec s acts with Some s1 => exec s1 acts' | None => None end.
Proof.
  revert s. induction acts as [|act acts IH]; intros s; simpl; [done|].
  destruct (step s act); [apply IH | done].
Qed.

Lemma reachable_exec c a s acts s' :
  reachable c a s → exec s acts = Some s' → reachable c a s'.
Proof.
  intros [acts0 H0] Hex. exists (acts0 ++ acts). by rewrite exec_app, H0.
Qed.

Lemma reachable_step c a s act s' :
  reachable c a s → step s act = Some s' → reachable c a s'.
Proof.
  intros Hr Hs. apply (reachable_exec c a s [act] s' Hr). simpl. by rewrite Hs.
Qed.

Lemma reachable_init c a : reachable c a (init c a).
Proof. by exists []. Qed.

(** Induction over the states a program reaches. *)
Lemma reachable_ind c a (P : state → Prop) :
  P (init c a) →
  (∀ s act s', reachable c a s → P s → step s act = Some s' → P s') →
  ∀ s, reachable c a s → P s.
Proof.
  intros Hinit Hstep s [acts Hex]. revert s Hex.
  induction acts as [|act acts IH] using rev_ind; intros s Hex.
  - simpl in Hex. by simplify_eq.
  - rewrite exec_app in Hex.
    destruct (exec (init c a) acts) as [s1|] eqn:H1; [|done].
    simpl in Hex. destruct (step s1 act) as [s2|] eqn:H2; [|done]. simplify_eq.
    eapply Hstep; [by exists acts | by apply IH | done].
Qed.

(** A step of the pool unfolds into a step of one goroutine. *)
Lemma step_Run_Some s i s' :
  step s (Run i) = Some s' →
  ∃ t g' t' new evs,
    pool s !! i = Some t ∧ tstep (grp s) t = Some (g', t', new, evs) ∧
    s' = {| grp := g'; pool := <[i:=t']> (pool s) ++ new;
            trace := trace s ++ map (pair i) evs |}.
Proof.
  simpl. destruct (pool s !! i) as [t|] eqn:Hi; [|done].
  destruct (tstep (grp s) t) as [[[[g' t'] new] evs]|] eqn:Ht; [|done].
  intros ?; simplify_eq. by eexists _, _, _, _, _.
Qed.

Lemma step_Run_enabled s i t :
  pool s !! i = Some t → is_Some (tstep (grp s) t) → is_Some (step s (Run i)).
Proof.
  intros Hi [[[[g' t'] new] evs] Ht]. simpl. rewrite Hi, Ht. by eexists.
Qed.

(** The trace only grows. *)
Lemma step_trace_extends s act s' :
  step s act = Some s' → ∃ more, trace s' = trace s ++ more.
Proof.
  destruct act as [task| |i]; simpl.
  - intros ?; simplify_eq. exists []. by rewrite app_nil_r.
  - intros ?; simplify_eq. exists []. by rewrite app_nil_r.
  - intros Hs. apply (step_Run_Some s i s') in Hs as (t & g' & t' & new & evs & _ & _ & ->).
    by eexists.
Qed.

Lemma exec_trace_extends acts : ∀ s s',
  exec s acts = Some s' → ∃ more, trace s' = trace s ++ more.
Proof.
  induction acts as [|act acts IH]; intros s s' Hex; simpl in Hex.
  - simplify_eq. exists []. by rewrite app_nil_r.
  - destruct (step s act) as [s1|] eqn:Hs; [|done].
    destruct (step_trace_extends _ _ _ Hs) as [m1 H1].
    destruct (IH _ _ Hex) as [m2 H2].
    exists (m1 ++ m2). by rewrite H2, H1, app_assoc.
Qed.

(** The pool only grows. *)
Lemma step_pool_length s act s' :
  step s act = Some s' → (length (pool s) ≤ length (pool s'))%nat.
Proof.
  destruct act as [task| |i]; simpl.
  - intros ?; simplify_eq/=. rewrite length_app. lia.
  - intros ?; simplify_eq/=. rewrite length_app. lia.
  - intros Hs. apply (step_Run_Some s i s') in Hs as (t & g' & t' & new & evs & _ & _ & ->).
    simpl. rewrite length_app, length_insert. lia.
Qed.

(** ** Termination: every step of the pool uses up fuel *)





(** ** Progress: who can run *)

Lemma holder_in_pool c a s t :
  Inv c a s → t ∈ pool s → holding t = 1 →
  ∃ ch, semaphore (grp s) = Some ch ∧ 0 < buf ch.
Proof.
  intros HI Ht Hh.
  pose proof (total_elem holding _ _ holding_nonneg Ht) as Hle.
  rewrite <- (inv_sem _ _ _ HI), Hh in Hle.
  destruct (semaphore (grp s)) as [ch|]; simpl in Hle; [|lia].
  exists ch. split; [done | lia].
Qed.

Lemma runner_enabled c a s gated task pc :
  Inv c a s → Runner gated task pc ∈ pool s → pc ≠ R_exited →
  is_Some (tstep (grp s) (Runner gated task pc)).
Proof.
  intros HI Ht Hpc.
  assert (Hwf : wf_thread c (Runner gated task pc)).
  { eapply Forall_forall; [apply (inv_wf _ _ _ HI) | done]. }
  destruct pc; simpl; try done; try by eexists.
  - destruct task; by eexists.
  - destruct task as [[e|]|r|]; by eexists.
  - destruct (recover task); by eexists.
  - destruct (wg_Done (grp s)); by eexists.
  - destruct gated; simpl in Hwf; [|by destruct Hwf].
    destruct (holder_in_pool c a s _ HI Ht eq_refl) as (ch & -> & Hbuf).
    simpl. apply Z.ltb_lt in Hbuf. rewrite Hbuf. by eexists.
Qed.



(** ** The scheduler [run_all] runs every pool to its end *)




(** * The properties of the group *)

(** ** The scenarios of gtask_test.go *)

Example test_BasicFunctionality :
  Wait (grp (submit_all [Return None] (init 0 false))) = Some (1, None).
Proof. vm_compute. reflexivity. Qed.

Example test_MixedTaskTypes :
  Wait (grp (submit_all [Return None; Return (Some "E1"); Return None; Panics "P1"]
               (init 0 false)))
  = Some (2, Some "E1; task panic: P1").
Proof. vm_compute. reflexivity. Qed.

Example test_ConcurrentControl :
  let s := submit_all (replicate 5 (Return None)) (init 2 false) in
  Wait (grp s) = Some (5, None) ∧ forallb finished (pool s) = true.
Proof. vm_compute. split; reflexivity. Qed.

Example test_DisallowSomeFail :
  let s := submit_in_turn [Return None; Return (Some "E1"); Return None]
             (init 1 false) in
  Wait (grp s) = Some (1, Some "E1") ∧
  pool s !! 4%nat = Some (GoCall (Return None) G_denied).
Proof. vm_compute. split; reflexivity. Qed.

Example test_EmptyGroup : Wait (grp (init 0 false)) = Some (0, None).
Proof. reflexivity. Qed.

(** ** Every unit is counted once *)

Lemma tallied_split t :
  0 ≤ succeeded t ∧ 0 ≤ failed t ∧
  0 ≤ tallied t - succeeded t - failed t - unreported t ≤ in_flight t ∧
  tallied t ≤ 1.
Proof.
  induction t as [task []|gated [[e|]|r|] []|pc|was IH]; simpl; lia.
Qed.

Lemma unreported_nonneg t : 0 ≤ unreported t.
Proof.
  induction t as [task pc|gated [[e|]|r|] []|pc|was IH]; simpl; lia.
Qed.

Lemma total_le_length (w : thread → Z) l :
  (∀ t, w t ≤ 1) → total w l ≤ Z.of_nat (length l).
Proof.
  intros Hw. induction l as [|t l IH]; simpl; [lia | specialize (Hw t); lia].
Qed.

Lemma total_sub (w v : thread → Z) l :
  total (λ t, w t - v t) l = total w l - total v l.
Proof. induction l as [|t l IH]; simpl; lia. Qed.

(** What [totalTasks] counts beyond the successes, the failures and the
    units that ended with [runtime.Goexit()] is in flight. *)
Lemma pool_balance l :
  0 ≤ total tallied l - total succeeded l - total failed l - total unreported l
    ≤ total in_flight l ∧
  0 ≤ total succeeded l ∧ 0 ≤ total failed l ∧ 0 ≤ total unreported l ∧
  total tallied l ≤ Z.of_nat (length l).
Proof.
  pose proof (total_le (λ t, tallied t - succeeded t - failed t - unreported t)
                in_flight l
                (λ t, proj2 (proj1 (proj2 (proj2 (tallied_split t)))))) as Hup.
  pose proof (total_nonneg (λ t, tallied t - succeeded t - failed t - unreported t) l
                (λ t, proj1 (proj1 (proj2 (proj2 (tallied_split t)))))) as Hlo.
  rewrite (total_sub (λ t, tallied t - succeeded t - failed t) unreported) in Hup, Hlo.
  rewrite (total_sub (λ t, tallied t - succeeded t) failed) in Hup, Hlo.
  rewrite (total_sub tallied succeeded) in Hup, Hlo.
  pose proof (total_nonneg succeeded l (λ t, proj1 (tallied_split t))).
  pose proof (total_nonneg failed l (λ t, proj1 (proj2 (tallied_split t)))).
  pose proof (total_nonneg unreported l unreported_nonneg).
  pose proof (total_le_length tallied l (λ t, proj2 (proj2 (proj2 (tallied_split t))))).
  lia.
Qed.

Lemma failures_length evs : length (failures evs) = count is_failure evs.
Proof.
  unfold failures, count. induction evs as [|e evs IH]; csimpl; [done|].
  destruct e; simpl; rewrite ?IH; done.
Qed.

(** Once its [wg.Done()] has run, the goroutine of a unit has reported it
    once if [task()] returned or panicked, and not at all if it ended with
    [runtime.Goexit()]. *)
Lemma runner_reports gated task pc :
  in_flight (Runner gated task pc) = 0 →
  (count is_success (history (Runner gated task pc))
   + count is_failure (history (Runner gated task pc)) = reports task)%nat.
Proof.
  destruct pc, task as [[e|]|r|], gated; simpl; intros; try lia; reflexivity.
Qed.

(** In a reachable state where no unit is in flight, [totalTasks] is
    [successCount] plus the number of recorded failures plus the number of
    units that ended with [runtime.Goexit()]; so the first two add up to
    [totalTasks] when no unit ended that way. *)
Lemma units_accounted c a s :
  reachable c a s →
  total in_flight (pool s) = 0 →
  (Z.of_nat (length (pool s)) < int_half →
   successCount (grp s) + len (errors (grp s)) + total unreported (pool s)
   = totalTasks (grp s)) ∧
  (total unreported (pool s) = 0 →
   int_add (successCount (grp s)) (len (errors (grp s))) = totalTasks (grp s)) ∧
  successCount (grp s) = wrap (Z.of_nat (count is_success (trace s).*2)) ∧
  len (errors (grp s)) = Z.of_nat (count is_failure (trace s).*2) ∧
  ∀ i gated task pc,
    pool s !! i = Some (Runner gated task pc) →
    (count is_success (events_of i (trace s))
     + count is_failure (events_of i (trace s)) = reports task)%nat.
Proof.
  intros Hr Hfl. pose proof (Inv_reachable _ _ _ Hr) as HI.
  destruct (pool_balance (pool s)) as (Hbal & Hs & Hf & Hu & Hlen).
  rewrite Hfl in Hbal.
  repeat split.
  - intros Hsmall.
    rewrite (inv_success _ _ _ HI), (inv_total _ _ _ HI), (inv_errors _ _ _ HI).
    unfold int_half in *.
    rewrite !wrap_small; unfold int_half; lia.
  - intros Hnone. unfold int_add.
    rewrite (inv_success _ _ _ HI), wrap_add_l, (inv_errors _ _ _ HI).
    rewrite (inv_total _ _ _ HI). f_equal. lia.
  - apply (inv_trace_success _ _ _ HI).
  - unfold len. rewrite (inv_trace_errors _ _ _ HI), failures_length. done.
  - intros i gated task pc Hi.
    rewrite (inv_history _ _ _ HI _ _ Hi). apply runner_reports.
    apply (total_zero _ _ in_flight_nonneg) in Hfl.
    apply (Forall_lookup_1 _ _ _ _ Hfl Hi).
Qed.

(** C1: the claim fails on a unit that ends its goroutine with
    [runtime.Goexit()].  In the run [goexit_run] two units are submitted,
    one returns nil and one calls [runtime.Goexit()]; no unit is in flight
    and [Wait] has returned [(1, nil)]; [totalTasks] is 2 while
    [successCount] is 1 and no failure is recorded: the goroutine of the
    second unit has run its [wg.Done()] and has reported neither a success
    nor a failure. *)
Theorem C1_goexit_unit_is_in_neither_tally :
  reachable 0 false goexit_state ∧
  total in_flight (pool goexit_state) = 0 ∧
  pool goexit_state !! 4%nat = Some (WaitCall (W_returned 1 None)) ∧
  totalTasks (grp goexit_state) = 2 ∧
  successCount (grp goexit_state) = 1 ∧
  elems (errors (grp goexit_state)) = [] ∧
  int_add (successCount (grp goexit_state)) (len (errors (grp goexit_state)))
    ≠ totalTasks (grp goexit_state) ∧
  pool goexit_state !! 3%nat = Some (Runner false Goexit R_exited) ∧
  count is_done (events_of 3 (trace goexit_state)) = 1%nat ∧
  (count is_success (events_of 3 (trace goexit_state))
   + count is_failure (events_of 3 (trace goexit_state)) = 0)%nat.
Proof.
  split; [exists goexit_run; vm_compute; reflexivity|].
  vm_compute. repeat split; congruence.
Qed.

(** ** What [Wait] returns *)

Lemma append_cons (ch : Ascii.ascii) (s1 s2 : string) :
  String ch s1 +:+ s2 = String ch (s1 +:+ s2).
Proof. reflexivity. Qed.

Lemma append_assoc (s1 s2 s3 : string) : (s1 +:+ s2) +:+ s3 = s1 +:+ (s2 +:+ s3).
Proof.
  induction s1 as [|ch s1 IH]; [done|].
  by rewrite !append_cons, IH.
Qed.

Lemma append_nonempty (s1 s2 : string) : s1 ≠ "" → s1 +:+ s2 ≠ "".
Proof. destruct s1; [done|]. by rewrite append_cons. Qed.

Lemma join_loop_acc (l : list error) : ∀ acc : string,
  acc ≠ "" → join_loop acc l = String.concat "; " (acc :: l).
Proof.
  induction l as [|e l IH]; intros acc Hacc; [done|].
  cbn [join_loop]. destruct (String.eqb_spec acc "") as [->|_]; [done|].
  rewrite IH by (by apply append_nonempty, append_nonempty).
  destruct l as [|e' l]; cbn [String.concat]; by rewrite !append_assoc.
Qed.

(** With a first message that is not empty the loop is the plain join. *)
Lemma join_loop_first (e : error) (l : list error) :
  e ≠ "" → join_loop "" (e :: l) = String.concat "; " (e :: l).
Proof. intros He. cbn [join_loop]. simpl. by apply join_loop_acc. Qed.

(** An empty first message leaves no mark, not even its separator. *)
Lemma join_loop_skip (l : list error) : join_loop "" ("" :: l) = join_loop "" l.
Proof. reflexivity. Qed.

Lemma Wait_blocked (g : Group) : wg g ≠ 0 → Wait g = None.
Proof.
  intros Hwg. unfold Wait, wg_Wait_ready.
  destruct (wg g =? 0) eqn:H0; [by apply Z.eqb_eq in H0 | done].
Qed.

Lemma Wait_no_failures (g : Group) :
  wg g = 0 → elems (errors g) = [] → Wait g = Some (successCount g, None).
Proof.
  intros Hwg Herr. unfold Wait, wg_Wait_ready, getStats, len.
  by rewrite Hwg, Herr.
Qed.

Lemma Wait_joins (g : Group) (e : error) (l : list error) :
  wg g = 0 → elems (errors g) = e :: l → e ≠ "" →
  Wait g = Some (successCount g, Some (String.concat "; " (e :: l))).
Proof.
  intros Hwg Herr He. unfold Wait, wg_Wait_ready, getStats, joinErrors, len.
  rewrite Hwg, Herr. simpl length. cbn [Z.eqb Z.of_nat].
  rewrite join_loop_first by done. by destruct (AllowSomeFail g).
Qed.

(** C2, at the run [empty_first_run]: both units have reported, the
    recorded failures are [""] and ["a"] in this order, and [Wait] returns
    the text ["a"], where joining the two messages with ["; "] gives
    ["; a"]. *)
Theorem C2_join_drops_separator_after_empty_message :
  exec (init 0 true) empty_first_run = Some empty_first_state ∧
  total in_flight (pool empty_first_state) = 0 ∧
  elems (errors (grp empty_first_state)) = [""; "a"] ∧
  pool empty_first_state !! 4%nat = Some (WaitCall (W_returned 0 (Some "a"))) ∧
  Wait (grp empty_first_state) = Some (0, Some "a") ∧
  String.concat "; " (elems (errors (grp empty_first_state))) = "; a".
Proof. vm_compute. repeat split. Qed.

(** ** Goroutines of the units *)





(** C4: the goroutine of a unit is gated exactly when a bound is
    configured; whatever the unit does (returns nil, returns an error,
    panics), its events hold no [wg.Done()] before the deferred call and
    exactly one after it, no receive from the semaphore before it exits,
    and after it exactly one if it is gated and none otherwise; until it has
    exited it can always run its next step; and the counter of the
    WaitGroup and the tokens in the semaphore are the [Add]s less the
    [Done]s and the sends less the receives of the whole run. *)
Theorem C4_done_and_release_exactly_once c a s i gated task pc :
  reachable c a s →
  pool s !! i = Some (Runner gated task pc) →
  (gated = true ↔ c ≠ 0) ∧
  count is_done (events_of i (trace s)) = (if after_done pc then 1 else 0)%nat ∧
  count is_release (events_of i (trace s))
    = (if gated && after_release pc then 1 else 0)%nat ∧
  (pc ≠ R_exited → is_Some (step s (Run i))) ∧
  wg (grp s) = Z.of_nat (count is_add (trace s).*2)
               - Z.of_nat (count is_done (trace s).*2) ∧
  sem_buf (semaphore (grp s)) =
    Z.of_nat (count is_acquire (trace s).*2)
    - Z.of_nat (count is_release (trace s).*2).
Proof.
  intros Hr Hi. pose proof (Inv_reachable _ _ _ Hr) as HI.
  pose proof (inv_history _ _ _ HI _ _ Hi) as Hh.
  assert (Hwf : wf_thread c (Runner gated task pc)).
  { eapply Forall_lookup_1; [apply (inv_wf _ _ _ HI) | done]. }
  repeat split.
  - intros ->. simpl in Hwf. lia.
  - intros Hc. destruct gated; [done|]. simpl in Hwf. lia.
  - rewrite Hh. destruct pc, gated, task as [[e|]|r|]; reflexivity.
  - rewrite Hh. destruct pc, gated, task as [[e|]|r|]; reflexivity.
  - intros Hpc. apply (step_Run_enabled s i _ Hi).
    eapply runner_enabled; eauto. eapply list_elem_of_lookup_2; eauto.
  - apply (inv_trace_wg _ _ _ HI).
  - apply (inv_trace_sem _ _ _ HI).
Qed.

Lemma C4_mixed_run_witness :
  count is_done (events_of 7 (trace mixed_state)) = 1%nat.
Proof.
  refine (proj1 (proj2 (C4_done_and_release_exactly_once
                          0 false mixed_state 7 false (Panics "P1") R_exited _ _))).
  - exists mixed_run. vm_compute. reflexivity.
  - vm_compute. reflexivity.
Defined.

(** ** The admission check *)








(** ** The bound *)



Lemma tokens_bounded c a s : Inv c a s → 0 ≤ c → total holding (pool s) ≤ c.
Proof.
  intros HI Hc. rewrite <- (inv_sem _ _ _ HI).
  destruct (inv_shaped _ _ _ HI) as (_ & _ & Hno & Hyes).
  destruct (once (grp s)).
  - destruct (Hyes eq_refl) as [_ Hsem].
    destruct (semaphore (grp s)); simpl; lia.
  - destruct (Hno eq_refl) as [_ ->]. simpl. lia.
Qed.



(** ** The one-time setup *)

Lemma shaped_cap c a g :
  shaped c a g → once g = true →
  cap <$> semaphore g = (if 0 <? c then Some c else None).
Proof.
  intros (_ & _ & _ & Hyes) Ho. destruct (Hyes Ho) as [_ Hsem].
  destruct (semaphore g) as [ch|]; simpl.
  - destruct Hsem as (Hpos & -> & _). apply Z.ltb_lt in Hpos. by rewrite Hpos.
  - destruct (0 <? c) eqn:Hlt; [apply Z.ltb_lt in Hlt; lia | done].
Qed.

Lemma once_stays c a s acts s' :
  reachable c a s → exec s acts = Some s' → once (grp s) = true →
  once (grp s') = true.
Proof.
  intros Hr Hex Ho.
  pose proof (Inv_reachable _ _ _ Hr) as HI.
  pose proof (Inv_reachable _ _ _ (reachable_exec _ _ _ _ _ Hr Hex)) as HI'.
  destruct (exec_trace_extends _ _ _ Hex) as [more Hmore].
  pose proof (inv_trace_head _ _ _ HI) as Hh. rewrite Ho in Hh.
  destruct Hh as (i & rest & Hh).
  pose proof (inv_trace_head _ _ _ HI') as Hh'.
  destruct (once (grp s')); [done|]. rewrite Hmore, Hh in Hh'. done.
Qed.

Lemma go_step_stays g task pc g' t' new evs :
  tstep g (GoCall task pc) = Some (g', t', new, evs) →
  is_panicked t' = false →
  ∃ pc', t' = GoCall task pc' ∧ pc' ≠ G_once.
Proof.
  intros Hstep Hp. destruct pc; simpl in Hstep; repeat case_match; simplify_eq;
    by eexists.
Qed.

Lemma setup_step g t g' t' new evs :
  started t = false → tstep g t = Some (g', t', new, evs) → evs = [EvInit] →
  ∃ task, t' = GoCall task G_check.
Proof.
  intros Hst Hstep ->.
  destruct t as [task pc|gated task pc|pc|was]; simpl in Hst; try done.
  - destruct pc; try done. simpl in Hstep. simplify_eq. by eexists.
  - destruct pc; simpl in Hstep; unfold getStats in Hstep;
      repeat case_match; simplify_eq.
Qed.

(** The one-time setup is run by a caller of [Go]. *)
Lemma setup_by_go c a s :
  reachable c a s → ∀ i rest, trace s = (i, EvInit) :: rest →
  ∃ task pc, pool s !! i = Some (GoCall task pc) ∧ pc ≠ G_once.
Proof.
  intros Hr. induction Hr as [|s act s' Hr IH Hs] using reachable_ind; [done|].
  pose proof (Inv_reachable _ _ _ Hr) as HI.
  pose proof (Inv_reachable _ _ _ (reachable_step _ _ _ _ _ Hr Hs)) as HI'.
  intros i rest Htr. destruct act as [task'| |j].
  - simpl in Hs. simplify_eq/=. destruct (IH i rest Htr) as (task & pc & Hi & Hpc).
    exists task, pc. split; [|done]. rewrite lookup_app_l; [done|].
    by eapply lookup_lt_Some.
  - simpl in Hs. simplify_eq/=. destruct (IH i rest Htr) as (task & pc & Hi & Hpc).
    exists task, pc. split; [|done]. rewrite lookup_app_l; [done|].
    by eapply lookup_lt_Some.
  - apply step_Run_Some in Hs as (t & g' & t' & new & evs & Hj & Hstep & ->).
    simpl in *. pose proof (lookup_lt_Some _ _ _ Hj) as Hlt.
    assert (Ht' : is_panicked t' = false).
    { eapply (Forall_lookup_1 _ _ j _ (inv_alive _ _ _ HI')). simpl.
      rewrite lookup_app_l by (by rewrite length_insert).
      by rewrite list_lookup_insert_eq. }
    pose proof (inv_trace_head _ _ _ HI) as Hh.
    destruct (once (grp s)) eqn:Ho.
    + destruct Hh as (k & rest0 & Hh). rewrite Hh in Htr. simplify_eq/=.
      destruct (IH _ _ Hh) as (task & pc & Hi & Hpc).
      pose proof (lookup_lt_Some _ _ _ Hi) as Hlti.
      rewrite lookup_app_l by (by rewrite length_insert).
      destruct (decide (j = i)) as [->|Hne].
      * rewrite list_lookup_insert_eq by done. simplify_eq.
        destruct (go_step_stays _ _ _ _ _ _ _ Hstep Ht') as (pc' & -> & Hpc').
        by eexists _, _.
      * rewrite list_lookup_insert_ne by done. by eexists _, _.
    + rewrite Hh in Htr. simpl in Htr.
      pose proof (Forall_lookup_1 _ _ _ _ (inv_started _ _ _ HI Ho) Hj) as Hst.
      destruct (tstep_head _ _ _ _ _ _ Ho Hst Hstep) as [[_ ->]|[_ ->]]; [done|].
      simpl in Htr. simplify_eq.
      destruct (setup_step _ _ _ _ _ _ Hst Hstep eq_refl) as [task ->].
      rewrite lookup_app_l by (by rewrite length_insert).
      rewrite list_lookup_insert_eq by done. by eexists _, _.
Qed.

(** C7: in a reachable state, as long as the setup has not run the trace
    is empty, the failure list and the semaphore are nil and no call is
    past [once.Do]; once it has run, it is the first event of the trace,
    left there by a caller of [Go] in its [once.Do], and occurs nowhere
    else, the failure list is allocated, and the semaphore
    exists exactly when [c > 0], with capacity [c]; [once.Do] then leaves
    the group as it is, and in every continuation of the run the setup stays
    done and the capacity unchanged.  On a group where it has not run,
    [once.Do] allocates the empty list and makes the channel of capacity
    [c] if [c > 0]. *)
Theorem C7_setup_runs_once c a s acts s' :
  reachable c a s → exec s acts = Some s' →
  (once (grp s) = false →
     trace s = [] ∧ errors (grp s) = None ∧ semaphore (grp s) = None ∧
     Forall (λ t, started t = false) (pool s) ∧
     errors (once_Do (grp s)) = Some [] ∧
     semaphore (once_Do (grp s))
       = (if 0 <? c then Some {| cap := c; buf := 0 |} else None) ∧
     once (once_Do (grp s)) = true) ∧
  (once (grp s) = true →
     (∃ i rest task pc,
        trace s = (i, EvInit) :: rest ∧ count is_init rest.*2 = 0%nat ∧
        pool s !! i = Some (GoCall task pc) ∧ pc ≠ G_once) ∧
     errors (grp s) ≠ None ∧
     cap <$> semaphore (grp s) = (if 0 <? c then Some c else None) ∧
     once_Do (grp s) = grp s ∧
     once (grp s') = true ∧
     cap <$> semaphore (grp s') = cap <$> semaphore (grp s)).
Proof.
  intros Hr Hex. pose proof (Inv_reachable _ _ _ Hr) as HI.
  pose proof (inv_shaped _ _ _ HI) as Hs.
  split; intros Ho.
  - destruct Hs as (HC & _ & Hno & _). destruct (Hno Ho) as [He Hsem].
    pose proof (inv_trace_head _ _ _ HI) as Hh. rewrite Ho in Hh.
    repeat split; try done.
    + by apply (inv_started _ _ _ HI).
    + unfold once_Do. rewrite Ho. simpl. by destruct (0 <? Concurrent (grp s)).
    + unfold once_Do. rewrite Ho. simpl. rewrite HC.
      destruct (0 <? c); simpl; [done | by rewrite Hsem].
    + unfold once_Do. rewrite Ho. simpl. by destruct (0 <? Concurrent (grp s)).
  - pose proof (inv_trace_head _ _ _ HI) as Hh. rewrite Ho in Hh.
    destruct Hh as (i & rest & Hh).
    pose proof (inv_trace_init _ _ _ HI) as Hn. rewrite Ho, Hh in Hn.
    pose proof (once_stays _ _ _ _ _ Hr Hex Ho) as Ho'.
    pose proof (Inv_reachable _ _ _ (reachable_exec _ _ _ _ _ Hr Hex)) as HI'.
    repeat split.
    + destruct (setup_by_go c a s Hr i rest Hh) as (task & pc & Hi & Hpc).
      exists i, rest, task, pc. split; [done|]. split; [|done].
      rewrite fmap_cons in Hn. unfold count in *. simpl in Hn. lia.
    + destruct Hs as (_ & _ & _ & Hyes). by destruct (Hyes Ho).
    + by apply (shaped_cap c a).
    + unfold once_Do. by rewrite Ho.
    + done.
    + rewrite (shaped_cap c a _ (inv_shaped _ _ _ HI') Ho').
      by rewrite (shaped_cap c a _ Hs Ho).
Qed.

Lemma C7_gated_run_witness :
  cap <$> semaphore (grp gated_state) = Some 1.
Proof.
  refine (proj1 (proj2 (proj2
            (proj2 (C7_setup_runs_once 1 false gated_state [] gated_state _ _) _)))).
  - exists gated_run. vm_compute. reflexivity.
  - reflexivity.
  - vm_compute. reflexivity.
Defined.

(** ** [Wait] *)

(** No step of a caller inside [Wait] writes to the group, starts a
    goroutine or leaves an event. *)
Lemma wait_step_frame g pc g' t' new evs :
  wait_step g pc = Some (g', t', new, evs) → g' = g ∧ new = [] ∧ evs = [].
Proof.
  destruct pc; simpl; unfold getStats; intros Hs;
    repeat case_match; by simplify_eq.
Qed.

Lemma wait_step_on g pc g' t' new evs :
  wait_on g (WaitCall pc) →
  wait_step g pc = Some (g', t', new, evs) → wait_on g t'.
Proof.
  intros Hon Hs. destruct (wait_step_frame _ _ _ _ _ _ Hs) as (-> & -> & ->).
  destruct pc as [| |n|n err]; simpl in *.
  - unfold wg_Wait_ready in Hs. destruct (wg g =? 0) eqn:Hwg; [|done].
    simplify_eq. simpl. by apply Z.eqb_eq.
  - unfold getStats in Hs. destruct (len (errors g) =? 0) eqn:Hlen; simplify_eq; simpl.
    + unfold Wait, wg_Wait_ready, getStats. by rewrite Hon, Hlen.
    + by apply Z.eqb_neq in Hlen.
  - destruct Hon as (Hwg & -> & Hlen). apply Z.eqb_neq in Hlen.
    assert (t' = WaitCall (W_returned (successCount g) (joinErrors g))) as ->
      by (destruct (AllowSomeFail g); by simplify_eq).
    simpl. unfold Wait, wg_Wait_ready, getStats. rewrite Hwg, Hlen. simpl.
    by destruct (AllowSomeFail g).
  - done.
Qed.

Lemma fresh_wait_enabled c a t :
  fresh_wait t → finished t = false → is_Some (tstep (new_group c a) t).
Proof.
  destruct t as [| |[| |n|n err]|]; simpl; try done; intros _ _; by eexists.
Qed.

Lemma fresh_wait_step c a s act s' :
  grp s = new_group c a → Forall fresh_wait (pool s) → no_go act = true →
  step s act = Some s' →
  grp s' = new_group c a ∧ Forall fresh_wait (pool s').
Proof.
  intros Hg Hall Hact Hs. destruct act as [task| |i]; [done| |].
  - simpl in Hs. simplify_eq/=. split; [done|].
    apply Forall_app; split; [done | by repeat constructor].
  - apply step_Run_Some in Hs as (t & g' & t' & new & evs & Hi & Ht & ->). simpl.
    pose proof (Forall_lookup_1 _ _ _ _ Hall Hi) as Hf.
    rewrite Hg in Ht.
    destruct t as [| |[| |n|n err]|]; simpl in Hf; try done; simpl in Ht;
      simplify_eq; (split; [done|]); rewrite app_nil_r; by apply Forall_insert.
Qed.

Lemma fresh_wait_exec c a acts : ∀ s s',
  grp s = new_group c a → Forall fresh_wait (pool s) →
  forallb no_go acts = true → exec s acts = Some s' →
  grp s' = new_group c a ∧ Forall fresh_wait (pool s').
Proof.
  induction acts as [|act acts IH]; intros s s' Hg Hall Hacts Hex; simpl in *.
  - by simplify_eq.
  - apply andb_prop in Hacts as [Hact Hacts].
    destruct (step s act) as [s1|] eqn:Hs; [|done].
    destruct (fresh_wait_step c a s act s1 Hg Hall Hact Hs) as [Hg1 Hall1].
    by apply (IH s1 s').
Qed.

(** C8: in a run where [Go] is never called, the group stays the fresh
    group, on which [Wait] returns [(0, nil)]; every goroutine of the pool
    is a caller inside [Wait] that can always run its next step until it
    has returned, and what it returns is [(0, nil)]. *)
Theorem C8_wait_on_fresh_group c a acts s :
  forallb no_go acts = true →
  exec (init c a) acts = Some s →
  grp s = new_group c a ∧
  Wait (grp s) = Some (0, None) ∧
  ∀ i t, pool s !! i = Some t →
    ∃ pc, t = WaitCall pc ∧
          (finished t = false → is_Some (step s (Run i))) ∧
          (∀ n err, pc = W_returned n err → n = 0 ∧ err = None).
Proof.
  intros Hacts Hex.
  destruct (fresh_wait_exec c a acts (init c a) s eq_refl (Forall_nil_2 _) Hacts Hex)
    as [Hg Hall].
  split; [done|]. split; [by rewrite Hg|].
  intros i t Hi. pose proof (Forall_lookup_1 _ _ _ _ Hall Hi) as Hf.
  destruct t as [| |pc|]; try done. exists pc. split; [done|]. split.
  - intros Hfin. apply (step_Run_enabled s i _ Hi). rewrite Hg.
    by apply fresh_wait_enabled.
  - intros n err ->. simpl in Hf. destruct n; try done. by destruct err.
Qed.

Lemma C8_fresh_wait_witness :
  Wait (grp (run_from 0 false fresh_wait_run)) = Some (0, None).
Proof.
  refine (proj1 (proj2 (C8_wait_on_fresh_group 0 false fresh_wait_run
                          (run_from 0 false fresh_wait_run) _ _))).
  - reflexivity.
  - vm_compute. reflexivity.
Defined.

Lemma waits_step n g s act s' :
  grp s = g → (n ≤ length (pool s))%nat →
  (∀ i t, (n ≤ i)%nat → pool s !! i = Some t → wait_on g t) →
  waits_from n act = true → step s act = Some s' →
  grp s' = g ∧ (n ≤ length (pool s'))%nat ∧
  (∀ i t, (n ≤ i)%nat → pool s' !! i = Some t → wait_on g t).
Proof.
  intros <- Hn Hall Hact Hs.
  pose proof (step_pool_length _ _ _ Hs) as Hlen.
  destruct act as [task| |j]; [done| |].
  - simpl in Hs. simplify_eq/=. repeat split; [lia|].
    intros i t Hi Ht. apply lookup_app_Some in Ht as [Ht|[_ Ht]]; [by eauto|].
    by apply list_lookup_singleton_Some in Ht as [_ <-].
  - simpl in Hact. apply bool_decide_eq_true in Hact.
    apply step_Run_Some in Hs as (t & g' & t' & new & evs & Hj & Ht & ->). simpl in *.
    pose proof (Hall j t Hact Hj) as Hon.
    destruct t as [| |pc|]; try done. simpl in Ht.
    destruct (wait_step_frame _ _ _ _ _ _ Ht) as (-> & -> & ->).
    pose proof (wait_step_on _ _ _ _ _ _ Hon Ht) as Hon'.
    repeat split; [lia|].
    intros i t Hi Hlook. rewrite app_nil_r in Hlook.
    destruct (decide (j = i)) as [->|Hne].
    + rewrite list_lookup_insert_eq in Hlook by (by eapply lookup_lt_Some).
      by simplify_eq.
    + rewrite list_lookup_insert_ne in Hlook by done. by eauto.
Qed.

Lemma waits_exec n g acts : ∀ s s',
  grp s = g → (n ≤ length (pool s))%nat →
  (∀ i t, (n ≤ i)%nat → pool s !! i = Some t → wait_on g t) →
  forallb (waits_from n) acts = true → exec s acts = Some s' →
  grp s' = g ∧
  (∀ i t, (n ≤ i)%nat → pool s' !! i = Some t → wait_on g t).
Proof.
  induction acts as [|act acts IH]; intros s s' Hg Hn Hall Hacts Hex; simpl in *.
  - by simplify_eq.
  - apply andb_prop in Hacts as [Hact Hacts].
    destruct (step s act) as [s1|] eqn:Hs; [|done].
    destruct (waits_step n g s act s1 Hg Hn Hall Hact Hs) as (Hg1 & Hn1 & Hall1).
    by apply (IH s1 s').
Qed.

(** C9: no step of a caller inside [Wait] changes the group, starts a
    goroutine or leaves an event.  When a run goes on from a reachable
    state [s] with calls to [Wait] only (no call to [Go], no step of a
    goroutine of [s]), the group stays as it is and every such call returns
    what [Wait] returns on the group of [s]: the same pair for all of
    them.  And however a run goes on, the trace is extended, and
    [successCount], the failure list and [totalTasks] are those of [s] with
    the successes, the failures and the admissions of the extension added:
    nothing is reset. *)
Theorem C9_wait_reads_only c a s acts s' :
  reachable c a s → exec s acts = Some s' →
  (∀ pc g' t' new evs,
     wait_step (grp s) pc = Some (g', t', new, evs) →
     g' = grp s ∧ new = [] ∧ evs = []) ∧
  (forallb (waits_from (length (pool s))) acts = true →
     grp s' = grp s ∧
     ∀ i n err, (length (pool s) ≤ i)%nat →
       pool s' !! i = Some (WaitCall (W_returned n err)) →
       Wait (grp s) = Some (n, err)) ∧
  (∃ more, trace s' = trace s ++ more ∧
     successCount (grp s')
       = wrap (successCount (grp s) + Z.of_nat (count is_success more.*2)) ∧
     elems (errors (grp s')) = elems (errors (grp s)) ++ failures more.*2 ∧
     totalTasks (grp s')
       = wrap (totalTasks (grp s) + Z.of_nat (count is_total more.*2))).
Proof.
  intros Hr Hex. split; [|split].
  - intros pc g' t' new evs Hs. by apply (wait_step_frame _ pc _ t').
  - intros Hacts.
    destruct (waits_exec (length (pool s)) (grp s) acts s s') as [Hg Hall]; eauto.
    { intros j t Hj Ht. apply lookup_lt_Some in Ht. lia. }
    split; [done|]. intros i n err Hi Hlook. apply (Hall i _ Hi Hlook).
  - pose proof (Inv_reachable _ _ _ Hr) as HI.
    pose proof (Inv_reachable _ _ _ (reachable_exec _ _ _ _ _ Hr Hex)) as HI'.
    destruct (exec_trace_extends _ _ _ Hex) as [more Hmore].
    exists more. split; [done|].
    pose proof (inv_trace_success _ _ _ HI') as Hs'.
    pose proof (inv_trace_errors _ _ _ HI') as He'.
    pose proof (inv_trace_total _ _ _ HI') as Ht'.
    rewrite Hmore, fmap_app in Hs', He', Ht'.
    rewrite count_app, Nat2Z.inj_add in Hs', Ht'. rewrite failures_app in He'.
    rewrite (inv_trace_success _ _ _ HI), (inv_trace_errors _ _ _ HI),
      (inv_trace_total _ _ _ HI), !wrap_add_l.
    done.
Qed.

Lemma C9_wait_twice_witness :
  Wait (grp mixed_state) = Some (2, Some "E1; task panic: P1").
Proof.
  refine (proj2 (proj1 (proj2 (C9_wait_reads_only 0 false mixed_state wait_twice
                                 (default mixed_state (exec mixed_state wait_twice))
                                 _ _)) _) 9%nat 2 (Some "E1; task panic: P1") _ _).
  - exists mixed_run. vm_compute. reflexivity.
  - vm_compute. reflexivity.
  - vm_compute. reflexivity.
  - vm_compute. lia.
  - vm_compute. reflexivity.
Defined.

(** ** A negative bound *)

Lemma no_unit_under_negative c t :
  c < 0 → wf_thread c t → is_panicked t = false →
  failed t = 0 ∧
  match t with
  | GoCall _ (G_launch | G_launched _) | Runner _ _ _ => False
  | _ => True
  end.
Proof.
  intros Hc Hwf Hp.
  destruct t as [task []|[] task pc|pc|was]; simpl in *; try done; try lia.
  destruct gated; lia.
Qed.

Lemma tstep_not_denied g t g' t' new evs task :
  len (errors g) = 0 →
  tstep g t = Some (g', t', new, evs) →
  t' ≠ GoCall task G_denied ∧ GoCall task G_denied ∉ new.
Proof.
  intros Hlen Hstep.
  assert (Hnil : ∀ x : thread, x ∉ @nil thread) by (intros x Hx; by apply elem_of_nil in Hx).
  assert (getHasFailed g = false) as Hf by (unfold getHasFailed; by rewrite Hlen).
  destruct t as [task0 pc|gated task0 pc|pc|was]; simpl in Hstep; [| | |done].
  - destruct pc; simpl in Hstep; rewrite ?Hf, ?andb_false_r in Hstep;
      repeat case_match; simplify_eq; (split; [done|]); try apply Hnil;
      intros Hx; by apply list_elem_of_singleton in Hx.
  - destruct pc; simpl in Hstep; repeat case_match; simplify_eq;
      (split; [done | apply Hnil]).
  - destruct pc; simpl in Hstep; unfold getStats in Hstep;
      repeat case_match; simplify_eq; (split; [done | apply Hnil]).
Qed.

Lemma never_denied_under_negative c a s :
  c < 0 → reachable c a s → ∀ task, GoCall task G_denied ∉ pool s.
Proof.
  intros Hc Hr. induction Hr as [|s act s' Hr IH Hs] using reachable_ind.
  { intros task Ht. by apply elem_of_nil in Ht. }
  pose proof (Inv_reachable _ _ _ Hr) as HI.
  assert (Hlen : len (errors (grp s)) = 0).
  { rewrite (inv_errors _ _ _ HI).
    assert (Forall (λ t, failed t = 0) (pool s)) as Hall.
    { apply Forall_forall. intros t Ht.
      apply (no_unit_under_negative c t Hc).
      - eapply (proj1 (Forall_forall _ _) (inv_wf _ _ _ HI)); done.
      - eapply (proj1 (Forall_forall _ _) (inv_alive _ _ _ HI)); done. }
    clear -Hall. induction Hall as [|t l Ht _ IHl]; simpl; lia. }
  intros task Ht. destruct act as [task'| |j].
  - simpl in Hs. simplify_eq/=. apply elem_of_app in Ht as [Ht|Ht]; [by eapply IH|].
    by apply list_elem_of_singleton in Ht.
  - simpl in Hs. simplify_eq/=. apply elem_of_app in Ht as [Ht|Ht]; [by eapply IH|].
    by apply list_elem_of_singleton in Ht.
  - apply step_Run_Some in Hs as (t & g' & t' & new & evs & Hj & Hstep & ->).
    destruct (tstep_not_denied _ _ _ _ _ _ task Hlen Hstep) as [Ht' Hnew].
    simpl in Ht. apply elem_of_app in Ht as [Ht|Ht]; [|done].
    apply list_elem_of_lookup in Ht as [k Hk].
    destruct (decide (j = k)) as [->|Hne].
    + rewrite list_lookup_insert_eq in Hk by (by eapply lookup_lt_Some).
      by simplify_eq.
    + rewrite list_lookup_insert_ne in Hk by done.
      eapply IH. eapply list_elem_of_lookup_2; eauto.
Qed.

(** C10: under a negative bound, in every reachable state the semaphore is
    nil and a caller inside [Go] has neither been turned away by the
    admission check nor reached the go statement nor returned; at the send
    it cannot run, and at every control point before the send it can: each
    call runs up to the send on the nil channel and stays there. *)
Theorem C10_negative_bound_blocks_forever c a s i task pc :
  c < 0 → reachable c a s →
  pool s !! i = Some (GoCall task pc) →
  semaphore (grp s) = None ∧
  pc ≠ G_denied ∧ pc ≠ G_launch ∧ (∀ gated, pc ≠ G_launched gated) ∧
  (pc = G_acquire → step s (Run i) = None) ∧
  (pc ≠ G_acquire → is_Some (step s (Run i))).
Proof.
  intros Hc Hr Hi. pose proof (Inv_reachable _ _ _ Hr) as HI.
  assert (Ht : GoCall task pc ∈ pool s) by (eapply list_elem_of_lookup_2; eauto).
  assert (Hsem : semaphore (grp s) = None).
  { destruct (inv_shaped _ _ _ HI) as (_ & _ & Hno & Hyes).
    destruct (once (grp s)).
    - destruct (Hyes eq_refl) as [_ Hs]. destruct (semaphore (grp s)); [lia | done].
    - by destruct (Hno eq_refl). }
  destruct (no_unit_under_negative c _ Hc
              (proj1 (Forall_forall _ _) (inv_wf _ _ _ HI) _ Ht)
              (proj1 (Forall_forall _ _) (inv_alive _ _ _ HI) _ Ht)) as [_ Hpc].
  repeat split; try done.
  - intros ->. by apply (never_denied_under_negative c a s Hc Hr task).
  - by intros ->.
  - by intros gated ->.
  - intros ->. simpl. rewrite Hi. simpl. by rewrite Hsem.
  - intros Hacq. apply (step_Run_enabled s i _ Hi).
    destruct pc; simpl in *; try done; try by eexists.
    + destruct (negb (AllowSomeFail (grp s)) && getHasFailed (grp s)); by eexists.
    + destruct (wg_Add (grp s) 1); by eexists.
    + destruct (Concurrent (grp s) =? 0); by eexists.
    + by destruct (never_denied_under_negative c a s Hc Hr task).
Qed.

Lemma C10_negative_run_witness : step negative_state (Run 0) = None.
Proof.
  refine (proj1 (proj2 (proj2 (proj2 (proj2
            (C10_negative_bound_blocks_forever (-1) false negative_state 0
               (Return None) G_acquire _ _ _))))) eq_refl).
  - lia.
  - exists negative_run. vm_compute. reflexivity.
  - vm_compute. reflexivity.
Defined.
(** * Further properties *)

(** ** The admission check is made once *)

Lemma past_check_step g task pc g' t' new evs :
  tstep g (GoCall task pc) = Some (g', t', new, evs) →
  before_admission pc = false → is_panicked t' = false →
  ∃ pc', t' = GoCall task pc' ∧ before_admission pc' = false.
Proof.
  intros Hstep Hpc Hp. destruct pc; try done; simpl in Hstep;
    repeat case_match; simplify_eq; by eexists.
Qed.

Lemma past_check_exec c a i task acts : ∀ s s' pc,
  Inv c a s → pool s !! i = Some (GoCall task pc) → before_admission pc = false →
  exec s acts = Some s' →
  ∃ pc', pool s' !! i = Some (GoCall task pc') ∧ before_admission pc' = false.
Proof.
  induction acts as [|act acts IH]; intros s s' pc HI Hi Hpc Hex; simpl in Hex.
  - simplify_eq. by exists pc.
  - destruct (step s act) as [s1|] eqn:Hs; [|done].
    pose proof (Inv_step _ _ _ _ _ HI Hs) as HI1.
    pose proof (lookup_lt_Some _ _ _ Hi) as Hlt.
    assert (∃ pc1, pool s1 !! i = Some (GoCall task pc1)
                   ∧ before_admission pc1 = false) as (pc1 & Hi1 & Hpc1).
    { destruct act as [task'| |j].
      - simpl in Hs. simplify_eq/=. exists pc. by rewrite lookup_app_l.
      - simpl in Hs. simplify_eq/=. exists pc. by rewrite lookup_app_l.
      - apply step_Run_Some in Hs as (t & g' & t' & new & evs & Hj & Ht & ->).
        simpl in *. rewrite lookup_app_l by (by rewrite length_insert).
        destruct (decide (j = i)) as [->|Hne].
        + rewrite list_lookup_insert_eq by done. simplify_eq.
          assert (Hp : is_panicked t' = false).
          { eapply (Forall_lookup_1 _ _ i _ (inv_alive _ _ _ HI1)). simpl.
            rewrite lookup_app_l by (by rewrite length_insert).
            by rewrite list_lookup_insert_eq. }
          destruct (past_check_step _ _ _ _ _ _ _ Ht Hpc Hp) as (pc' & -> & Hpc').
          by exists pc'.
        + rewrite list_lookup_insert_ne by done. by exists pc. }
    by apply (IH s1 s' pc1).
Qed.

(** X1: a call to [Go] that is past the admission check is never turned
    away afterwards, whatever is recorded while it goes on: in every
    continuation of the run it is past the check, and the denial is not
    among its events. *)
Theorem admission_is_decided_once c a s i task pc acts s' :
  reachable c a s →
  pool s !! i = Some (GoCall task pc) → before_admission pc = false →
  exec s acts = Some s' →
  ∃ pc', pool s' !! i = Some (GoCall task pc') ∧
         before_admission pc' = false ∧
         EvDenied ∉ events_of i (trace s').
Proof.
  intros Hr Hi Hpc Hex. pose proof (Inv_reachable _ _ _ Hr) as HI.
  destruct (past_check_exec c a i task acts s s' pc HI Hi Hpc Hex) as (pc' & Hi' & Hpc').
  exists pc'. split; [done|]. split; [done|].
  rewrite (inv_history _ _ _ (Inv_exec _ _ _ _ _ HI Hex) _ _ Hi').
  destruct pc' as [| | | | | | | |[]]; try done; simpl; intros Hin;
    repeat (apply elem_of_cons in Hin as [Hin|Hin]; [discriminate|]);
    by apply elem_of_nil in Hin.
Qed.

(** Both units of this run fail although [AllowSomeFail] is false: the
    second call (goroutine 1) passes the check before the first unit
    (goroutine 2) reports. *)
Lemma admission_is_decided_once_witness :
  ∃ pc', pool (run_from 0 false
                 ([CallGo (Return (Some "E1")); CallGo (Return (Some "E2"))]
                  ++ runs 0 5 ++ runs 1 2 ++ runs 2 5 ++ runs 1 3))
           !! 1%nat = Some (GoCall (Return (Some "E2")) pc')
         ∧ before_admission pc' = false.
Proof.
  destruct (admission_is_decided_once 0 false
              (run_from 0 false
                 ([CallGo (Return (Some "E1")); CallGo (Return (Some "E2"))]
                  ++ runs 0 5 ++ runs 1 2))
              1 (Return (Some "E2")) G_addTotal (runs 2 5 ++ runs 1 3)
              (run_from 0 false
                 ([CallGo (Return (Some "E1")); CallGo (Return (Some "E2"))]
                  ++ runs 0 5 ++ runs 1 2 ++ runs 2 5 ++ runs 1 3)))
    as (pc' & Hi & Hpc & _).
  - exists ([CallGo (Return (Some "E1")); CallGo (Return (Some "E2"))]
            ++ runs 0 5 ++ runs 1 2).
    vm_compute. reflexivity.
  - vm_compute. reflexivity.
  - reflexivity.
  - vm_compute. reflexivity.
  - exists pc'. split; [exact Hi | exact Hpc].
Defined.

Lemma tstep_admits g t g' t' new evs task :
  negb (AllowSomeFail g) && getHasFailed g = false →
  tstep g t = Some (g', t', new, evs) →
  t' ≠ GoCall task G_denied ∧ GoCall task G_denied ∉ new.
Proof.
  intros Hf Hstep.
  assert (Hnil : ∀ x : thread, x ∉ @nil thread) by (intros x Hx; by apply elem_of_nil in Hx).
  destruct t as [task0 pc|gated task0 pc|pc|was]; simpl in Hstep; [| | |done].
  - destruct pc; simpl in Hstep; rewrite ?Hf in Hstep;
      repeat case_match; simplify_eq; (split; [done|]); try apply Hnil;
      intros Hx; by apply list_elem_of_singleton in Hx.
  - destruct pc; simpl in Hstep; repeat case_match; simplify_eq;
      (split; [done | apply Hnil]).
  - destruct pc; simpl in Hstep; unfold getStats in Hstep;
      repeat case_match; simplify_eq; (split; [done | apply Hnil]).
Qed.

(** X2: with [AllowSomeFail] true no call to [Go] is ever turned away,
    however many failures are recorded: no caller is at the early return
    in any reachable state. *)
Theorem allow_some_fail_admits_every_call c s i task pc :
  reachable c true s → pool s !! i = Some (GoCall task pc) → pc ≠ G_denied.
Proof.
  intros Hr. revert i task pc.
  induction Hr as [|s act s' Hr IH Hs] using reachable_ind; [done|].
  pose proof (Inv_reachable _ _ _ Hr) as HI.
  assert (Hf : negb (AllowSomeFail (grp s)) && getHasFailed (grp s) = false).
  { destruct (inv_shaped _ _ _ HI) as (_ & -> & _). done. }
  intros i task pc Hi ->. destruct act as [task'| |j].
  - simpl in Hs. simplify_eq/=. apply lookup_app_Some in Hi as [Hi|[_ Hi]].
    + by eapply IH.
    + by apply list_lookup_singleton_Some in Hi as [_ ?].
  - simpl in Hs. simplify_eq/=. apply lookup_app_Some in Hi as [Hi|[_ Hi]].
    + by eapply IH.
    + by apply list_lookup_singleton_Some in Hi as [_ ?].
  - apply step_Run_Some in Hs as (t & g' & t' & new & evs & Hj & Hstep & ->).
    destruct (tstep_admits _ _ _ _ _ _ task Hf Hstep) as [Ht' Hnew].
    simpl in Hi. apply lookup_app_Some in Hi as [Hi|[_ Hi]].
    + destruct (decide (j = i)) as [->|Hne].
      * rewrite list_lookup_insert_eq in Hi by (by eapply lookup_lt_Some).
        by simplify_eq.
      * rewrite list_lookup_insert_ne in Hi by done. by eapply IH.
    + apply Hnew. by eapply list_elem_of_lookup_2.
Qed.

Lemma allow_some_fail_witness :
  G_launched false ≠ G_denied.
Proof.
  refine (allow_some_fail_admits_every_call 0 empty_first_state 1
            (Return (Some "a")) (G_launched false) _ _).
  - exists empty_first_run. vm_compute. reflexivity.
  - vm_compute. reflexivity.
Defined.

(** ** The counters while units are in flight *)

(** X3: at every moment of a run (fewer than 2^63 goroutines),
    [successCount] plus the number of recorded failures is at most
    [totalTasks]; what is missing is the units that ended with
    [runtime.Goexit()] and are through their [wg.Done()] (they are never
    reported), and at most the number of units in flight. *)
Theorem counters_never_run_ahead c a s :
  reachable c a s → Z.of_nat (length (pool s)) < int_half →
  0 ≤ totalTasks (grp s) - successCount (grp s) - len (errors (grp s))
      - total unreported (pool s)
    ≤ total in_flight (pool s) ∧
  successCount (grp s) + len (errors (grp s)) ≤ totalTasks (grp s).
Proof.
  intros Hr Hsmall. pose proof (Inv_reachable _ _ _ Hr) as HI.
  destruct (pool_balance (pool s)) as (Hbal & Hs & Hf & Hu & Hlen).
  rewrite (inv_total _ _ _ HI), (inv_success _ _ _ HI), (inv_errors _ _ _ HI).
  unfold int_half in *. rewrite !wrap_small; unfold int_half; lia.
Qed.

(** In [goexit_state] nothing is in flight and one unit is missing from
    both tallies: the one that ended with [runtime.Goexit()]. *)
Lemma counters_never_run_ahead_witness :
  0 ≤ totalTasks (grp goexit_state) - successCount (grp goexit_state)
      - len (errors (grp goexit_state)) - total unreported (pool goexit_state)
    ≤ total in_flight (pool goexit_state).
Proof.
  refine (proj1 (counters_never_run_ahead 0 false goexit_state _ _)).
  - exists goexit_run. vm_compute. reflexivity.
  - vm_compute. reflexivity.
Defined.

Lemma total_all_zero (w : thread → Z) l :
  Forall (λ t, w t = 0) l → total w l = 0.
Proof. induction 1 as [|t l Ht _ IH]; simpl; lia. Qed.

(** ** The barrier *)

(** X4: whenever the counter of the WaitGroup is zero, so that [Wait] can
    pass its barrier, every goroutine that a go statement of [Go] started
    has run its [wg.Done()], and it has reported its unit exactly once if
    [task()] returned or panicked and not at all if it ended with
    [runtime.Goexit()]; and no caller is between [wg.Add(1)] and its go
    statement. *)
Theorem barrier_open_means_all_reported c a s i t :
  reachable c a s → wg (grp s) = 0 → pool s !! i = Some t →
  match t with
  | Runner gated task pc =>
      after_done pc = true ∧
      (count is_success (events_of i (trace s))
       + count is_failure (events_of i (trace s)) = reports task)%nat
  | GoCall task pc => pc ≠ G_branch ∧ pc ≠ G_acquire ∧ pc ≠ G_launch
  | _ => True
  end.
Proof.
  intros Hr Hwg Hi. pose proof (Inv_reachable _ _ _ Hr) as HI.
  pose proof (inv_wg _ _ _ HI) as Hsum. rewrite Hwg in Hsum. symmetry in Hsum.
  apply (total_zero _ _ wg_share_nonneg) in Hsum.
  pose proof (Forall_lookup_1 _ _ _ _ Hsum Hi) as Ht. simpl in Ht.
  destruct t as [task pc|gated task pc|pc|was]; [| |done|done].
  - by destruct pc.
  - assert (Hd : after_done pc = true) by (by destruct pc).
    split; [done|]. rewrite (inv_history _ _ _ HI _ _ Hi).
    apply runner_reports. by destruct pc.
Qed.

Lemma barrier_open_witness :
  after_done R_exited = true ∧
  (count is_success (events_of 3 (trace goexit_state))
   + count is_failure (events_of 3 (trace goexit_state)) = reports Goexit)%nat.
Proof.
  refine (barrier_open_means_all_reported 0 false goexit_state 3
            (Runner false Goexit R_exited) _ _ _).
  - exists goexit_run. vm_compute. reflexivity.
  - vm_compute. reflexivity.
  - vm_compute. reflexivity.
Defined.



(** ** What [Wait] reports *)

(** X6: when [Wait] returns, the count is [successCount] and the error is
    nil exactly when no failure is recorded (a failure with an empty
    message still gives an error). *)
Theorem Wait_error_iff_failure (g : Group) (n : Z) (err : option error) :
  Wait g = Some (n, err) →
  wg g = 0 ∧ n = successCount g ∧ (err = None ↔ elems (errors g) = []).
Proof.
  unfold Wait, wg_Wait_ready, getStats, joinErrors, len. intros Hw.
  destruct (wg g =? 0) eqn:Hz; [|done]. apply Z.eqb_eq in Hz.
  destruct (elems (errors g)) as [|e l] eqn:He; simpl in Hw.
  - by simplify_eq.
  - destruct (AllowSomeFail g); simplify_eq; done.
Qed.

Lemma Wait_error_iff_failure_witness :
  wg (grp empty_first_state) = 0 ∧ 0 = successCount (grp empty_first_state) ∧
  (Some "a" = None ↔ elems (errors (grp empty_first_state)) = []).
Proof.
  apply (Wait_error_iff_failure (grp empty_first_state) 0 (Some "a")).
  vm_compute. reflexivity.
Defined.

Lemma join_loop_drop_empty (l : list error) :
  join_loop "" l = String.concat "; " (drop_empty l).
Proof.
  induction l as [|e l IH]; [done|].
  cbn [drop_empty]. destruct (String.eqb_spec e "") as [->|He].
  - by rewrite join_loop_skip.
  - by apply join_loop_first.
Qed.

(** X7: the message of the error that [Wait] returns is the recorded
    messages joined by ["; "] once the empty messages at the front of the
    list are left out. *)
Theorem Wait_message (g : Group) (n : Z) (msg : error) :
  Wait g = Some (n, Some msg) →
  msg = String.concat "; " (drop_empty (elems (errors g))).
Proof.
  unfold Wait, wg_Wait_ready, getStats, joinErrors. intros Hw.
  destruct (wg g =? 0); [|done].
  destruct (len (errors g) =? 0); [done|].
  destruct (AllowSomeFail g); simplify_eq; apply join_loop_drop_empty.
Qed.

Lemma Wait_message_witness :
  "a" = String.concat "; " (drop_empty (elems (errors (grp empty_first_state)))).
Proof.
  apply (Wait_message (grp empty_first_state) 0 "a"). vm_compute. reflexivity.
Defined.

(** ** Blocking in [Go] *)

(** X8: without a bound ([Concurrent] zero) the semaphore is never made
    and a caller inside [Go] is never blocked: it is never at the send, and
    until it has returned it can always run its next step. *)
Theorem unbounded_go_never_blocks a s i task pc :
  reachable 0 a s → pool s !! i = Some (GoCall task pc) →
  semaphore (grp s) = None ∧ pc ≠ G_acquire ∧ pc ≠ G_launch ∧
  (finished (GoCall task pc) = false → is_Some (step s (Run i))).
Proof.
  intros Hr Hi. pose proof (Inv_reachable _ _ _ Hr) as HI.
  pose proof (Forall_lookup_1 _ _ _ _ (inv_wf _ _ _ HI) Hi) as Hwf.
  assert (Hsem : semaphore (grp s) = None).
  { destruct (inv_shaped _ _ _ HI) as (_ & _ & Hno & Hyes).
    destruct (once (grp s)).
    - destruct (Hyes eq_refl) as [_ Hs]. destruct (semaphore (grp s)); [lia | done].
    - by destruct (Hno eq_refl). }
  split; [done|]. split; [by intros ->|]. split; [intros ->; simpl in Hwf; lia|].
  intros Hfin. apply (step_Run_enabled s i _ Hi).
  destruct pc; simpl in *; try done; try by eexists.
  - destruct (negb (AllowSomeFail (grp s)) && getHasFailed (grp s)); by eexists.
  - destruct (wg_Add (grp s) 1); by eexists.
  - destruct (Concurrent (grp s) =? 0); by eexists.
Qed.

Lemma unbounded_go_witness : semaphore (grp mixed_state) = None.
Proof.
  refine (proj1 (unbounded_go_never_blocks false mixed_state 0 (Return None)
                   (G_launched false) _ _)).
  - exists mixed_run. vm_compute. reflexivity.
  - vm_compute. reflexivity.
Defined.

(** X9: under a bound [c > 0] a caller at the send of [Go] is blocked
    exactly when [c] tokens are held, by units that have not exited and by
    callers about to start one. *)
Theorem bounded_go_blocks_iff_full c a s i task :
  0 < c → reachable c a s → pool s !! i = Some (GoCall task G_acquire) →
  step s (Run i) = None ↔ total holding (pool s) = c.
Proof.
  intros Hc Hr Hi. pose proof (Inv_reachable _ _ _ Hr) as HI.
  pose proof (tokens_bounded c a s HI ltac:(lia)) as Hle.
  assert (Ho : once (grp s) = true).
  { destruct (once (grp s)) eqn:Ho; [done|].
    by pose proof (Forall_lookup_1 _ _ _ _ (inv_started _ _ _ HI Ho) Hi). }
  destruct (inv_shaped _ _ _ HI) as (_ & _ & _ & Hyes).
  destruct (Hyes Ho) as [_ Hsem].
  pose proof (inv_sem _ _ _ HI) as Hbuf.
  simpl. rewrite Hi. simpl.
  destruct (semaphore (grp s)) as [ch|]; simpl in *; [|lia].
  destruct Hsem as (_ & Hcap & _). rewrite Hcap, Hbuf.
  destruct (total holding (pool s) <? c) eqn:Hlt.
  - apply Z.ltb_lt in Hlt. split; [done | lia].
  - apply Z.ltb_ge in Hlt. split; [lia | done].
Qed.

Lemma bounded_go_blocks_witness : step gated_state (Run 1) = None.
Proof.
  refine (proj2 (bounded_go_blocks_iff_full 1 false gated_state 1 (Return None) _ _ _) _).
  - lia.
  - exists gated_run. vm_compute. reflexivity.
  - vm_compute. reflexivity.
  - vm_compute. reflexivity.
Defined.

(** ** [totalTasks] and the calls *)

Lemma tstep_launch g t g' t' new evs :
  is_panicked t' = false →
  tstep g t = Some (g', t', new, evs) →
  launched_call t' + total launched_call new - launched_call t
  = is_unit t' + total is_unit new - is_unit t.
Proof.
  intros Halive Hstep.
  destruct t as [task pc|gated task pc|pc|was]; simpl in Hstep; [| | |done].
  - destruct pc; simpl in Hstep; repeat case_match; simplify_eq; simpl in *;
      first [done | lia].
  - destruct pc; simpl in Hstep; repeat case_match; simplify_eq; simpl in *;
      first [done | lia].
  - destruct pc; simpl in Hstep; unfold getStats in Hstep;
      repeat case_match; simplify_eq; simpl in *; first [done | lia].
Qed.

(** Every go statement of [Go] has started one goroutine. *)
Lemma units_match_launches c a s :
  reachable c a s → total launched_call (pool s) = total is_unit (pool s).
Proof.
  intros Hr. induction Hr as [|s act s' Hr IH Hs] using reachable_ind; [done|].
  pose proof (inv_alive _ _ _ (Inv_reachable _ _ _ (reachable_step _ _ _ _ _ Hr Hs)))
    as Halive.
  destruct act as [task'| |j].
  - simpl in Hs. simplify_eq/=. rewrite !total_app. simpl. lia.
  - simpl in Hs. simplify_eq/=. rewrite !total_app. simpl. lia.
  - apply step_Run_Some in Hs as (t & g' & t' & new & evs & Hj & Hstep & ->).
    simpl in *. rewrite !(total_step _ _ _ _ _ _ Hj).
    assert (Ht' : is_panicked t' = false).
    { apply (Forall_lookup_1 _ _ j t' Halive).
      pose proof (lookup_lt_Some _ _ _ Hj) as Hlt.
      rewrite lookup_app_l by (by rewrite length_insert).
      by apply list_lookup_insert_eq. }
    pose proof (tstep_launch _ _ _ _ _ _ Ht' Hstep). lia.
Qed.

Lemma tallied_by_call t :
  is_panicked t = false →
  tallied t = counted_call t - launched_call t + is_unit t ∧
  counted_call t ≤ is_call t.
Proof. destruct t as [task []|gated task pc|pc|was]; simpl; try done; lia. Qed.

(** X10: in every reachable state (fewer than 2^63 goroutines)
    [totalTasks] is the number of calls to [Go] that have been through
    [totalTasks++], hence at most the number of calls made: the calls
    turned away and those not yet past the check are not counted. *)
Theorem totalTasks_counts_the_calls c a s :
  reachable c a s → Z.of_nat (length (pool s)) < int_half →
  totalTasks (grp s) = total counted_call (pool s) ∧
  totalTasks (grp s) ≤ total is_call (pool s).
Proof.
  intros Hr Hsmall. pose proof (Inv_reachable _ _ _ Hr) as HI.
  pose proof (units_match_launches c a s Hr) as Hlaunch.
  assert (Hsum : total tallied (pool s) = total counted_call (pool s)
                 ∧ total counted_call (pool s) ≤ total is_call (pool s)).
  { clear -Hlaunch HI. pose proof (inv_alive _ _ _ HI) as Halive.
    revert Hlaunch. generalize (pool s) Halive. clear.
    intros l Hl.
    assert (total tallied l
            = total counted_call l - total launched_call l + total is_unit l
            ∧ total counted_call l ≤ total is_call l) as [H1 H2].
    { induction Hl as [|t l Ht _ [IH1 IH2]]; simpl; [lia|].
      destruct (tallied_by_call t Ht). lia. }
    lia. }
  destruct Hsum as [Ht Hle].
  pose proof (total_le_length tallied (pool s)
                (λ t, proj2 (proj2 (proj2 (tallied_split t))))) as Hlen.
  pose proof (total_nonneg tallied (pool s)
                (λ t, ltac:(pose proof (tallied_split t);
                            pose proof (unreported_nonneg t); lia))) as Hnn.
  rewrite (inv_total _ _ _ HI), wrap_small by (unfold int_half in *; lia).
  lia.
Qed.

Lemma totalTasks_counts_witness :
  totalTasks (grp (run_from 0 false (after_failure_run ++ CallGo (Return None) :: runs 2 2)))
  = 1.
Proof.
  refine (proj1 (totalTasks_counts_the_calls 0 false
                   (run_from 0 false (after_failure_run ++ CallGo (Return None) :: runs 2 2))
                   _ _)).
  - exists (after_failure_run ++ CallGo (Return None) :: runs 2 2).
    vm_compute. reflexivity.
  - vm_compute. reflexivity.
Defined.

(** * Package utils *)

Import utils.

(** ** Package utils: searching and mapping *)

Lemma ForEach_spec {T} (data : list T) (f : T → option error) :
  ∃ post, data = (ForEach data f).1 ++ post ∧
    match (ForEach data f).2 with
    | None => post = [] ∧ Forall (λ x, f x = None) data
    | Some err =>
        ∃ pre item, (ForEach data f).1 = pre ++ [item] ∧
                    Forall (λ x, f x = None) pre ∧ f item = Some err
    end.
Proof.
  induction data as [|item rest IH]; simpl.
  - exists []. by repeat split.
  - destruct (f item) as [err|] eqn:Hf; simpl.
    + exists rest. split; [done|]. exists [], item. split; [done|]. split; [constructor | done].
    + destruct (ForEach rest f) as [called r]. simpl in *.
      destruct IH as (post & Hd & Hr). exists post. split; [by rewrite Hd at 1|].
      destruct r as [err|].
      * destruct Hr as (pre & it & -> & Hpre & Hit).
        exists (item :: pre), it. split; [done|]. split; [by constructor | done].
      * destruct Hr as [-> Hall]. split; [done | by constructor].
Qed.

(** X11: [ForEach] calls [f] on the items in order and stops at the first
    one for which [f] returns an error: it returns that error, the items
    after it are never passed to [f]; it returns nil exactly when [f]
    returns nil on every item. *)
Theorem ForEach_stops_at_first_error {T} (data : list T) (f : T → option error) :
  ((ForEach data f).2 = None ↔ Forall (λ x, f x = None) data) ∧
  ∃ post, data = (ForEach data f).1 ++ post ∧
    match (ForEach data f).2 with
    | None => post = []
    | Some err =>
        ∃ pre item, (ForEach data f).1 = pre ++ [item] ∧
                    Forall (λ x, f x = None) pre ∧ f item = Some err
    end.
Proof.
  destruct (ForEach_spec data f) as (post & Hd & Hr). split.
  - destruct ((ForEach data f).2) as [err|] eqn:Hres.
    + split; [done|]. intros Hall.
      destruct Hr as (pre & item & Hc & _ & Hit).
      assert (item ∈ data) as Hin.
      { rewrite Hd, Hc. rewrite !elem_of_app, list_elem_of_singleton. auto. }
      apply (proj1 (Forall_forall _ _) Hall) in Hin. congruence.
    + by destruct Hr.
  - exists post. split; [done|].
    destruct ((ForEach data f).2); [done | by destruct Hr].
Qed.

Lemma FindIndex_from_spec {T} (f : T → bool) (data : list T) : ∀ idx,
  0 ≤ idx →
  (FindIndex_from idx data f = -1 ∧ Forall (λ x, f x = false) data) ∨
  (∃ k x, FindIndex_from idx data f = idx + Z.of_nat k ∧
          data !! k = Some x ∧ f x = true ∧
          ∀ j y, (j < k)%nat → data !! j = Some y → f y = false).
Proof.
  induction data as [|item rest IH]; intros idx Hidx; simpl.
  - left. by split.
  - destruct (f item) eqn:Hf.
    + right. exists 0%nat, item. split_and!; [lia | done | done | intros; lia].
    + destruct (IH (idx + 1) ltac:(lia)) as [[Hr Hall]|(k & x & Hr & Hk & Hx & Hmin)].
      * left. split; [done | by constructor].
      * right. exists (S k), x. split_and!; [lia | done | done |].
        intros [|j] y Hj Hy; simpl in Hy; [by simplify_eq|].
        apply (Hmin j y); [lia | done].
Qed.

(** X12: [FindIndex] returns -1 exactly when no item satisfies [f];
    otherwise it returns the index, within bounds, of an item that
    satisfies [f], and no item before it does. *)
Theorem FindIndex_first_match {T} (data : list T) (f : T → bool) :
  (FindIndex data f = -1 ↔ Forall (λ x, f x = false) data) ∧
  (FindIndex data f ≠ -1 →
   0 ≤ FindIndex data f < length_of data ∧
   ∃ x, data !! Z.to_nat (FindIndex data f) = Some x ∧ f x = true ∧
        ∀ j y, (j < Z.to_nat (FindIndex data f))%nat →
               data !! j = Some y → f y = false).
Proof.
  unfold FindIndex, length_of.
  destruct (FindIndex_from_spec f data 0 ltac:(lia))
    as [[Hr Hall]|(k & x & Hr & Hk & Hx & Hmin)]; rewrite Hr.
  - split; [done|]. done.
  - pose proof (lookup_lt_Some _ _ _ Hk) as Hlt. split.
    + split; [lia|]. intros Hall.
      pose proof (Forall_lookup_1 _ _ _ _ Hall Hk). simpl in *. congruence.
    + intros _. replace (Z.to_nat (0 + Z.of_nat k)) with k by lia.
      split; [lia|]. by exists x.
Qed.



Lemma Map_loop_spec {T U} (f : T → U) (data : list T) : ∀ result,
  Map_loop result data f = result ++ (f <$> data).
Proof.
  induction data as [|item rest IH]; intros result; simpl.
  - by rewrite app_nil_r.
  - rewrite IH. by rewrite <- app_assoc.
Qed.

Lemma MapColumn_loop_spec {T U} (f : T → U) (slice : list T) :
  ∀ (done rest : list U),
    length rest = length slice →
    MapColumn_loop (done ++ rest) (length done) slice f = done ++ (f <$> slice).
Proof.
  induction slice as [|v slice IH]; intros done rest Hlen; simpl.
  - destruct rest; [done | done].
  - destruct rest as [|u rest]; [done|]. simpl in Hlen.
    rewrite insert_app_r_alt by lia. rewrite Nat.sub_diag. simpl.
    specialize (IH (done ++ [f v]) rest ltac:(lia)).
    rewrite length_app in IH. simpl in IH. rewrite Nat.add_1_r in IH.
    rewrite <- !app_assoc in IH. simpl in IH. by rewrite IH.
Qed.

(** X14: [Map] (which appends) and [MapColumn] (which writes by index into
    a slice made beforehand) return the same slice: the images of the
    items, in order, as many as the items; nothing of the zero values
    [MapColumn] starts from is left. *)
Theorem Map_and_MapColumn_agree {T U} (zero : U) (data : list T) (f : T → U) :
  Map data f = f <$> data ∧
  MapColumn zero data f = Map data f ∧
  length (Map data f) = length data.
Proof.
  assert (HM : Map data f = f <$> data) by (unfold Map; by rewrite Map_loop_spec).
  split; [done|]. split.
  - rewrite HM. unfold MapColumn.
    apply (MapColumn_loop_spec f data [] (replicate (length data) zero)).
    by rewrite length_replicate.
  - by rewrite HM, length_fmap.
Qed.

Lemma Filter_loop_spec {T} (f : T → bool) (data : list T) : ∀ result,
  Filter_loop result data f = result ++ List.filter f data.
Proof.
  induction data as [|item rest IH]; intros result; simpl.
  - by rewrite app_nil_r.
  - rewrite IH. destruct (f item); [by rewrite <- app_assoc | done].
Qed.

(** X15: [Filter] returns the items that satisfy [f], each as often as it
    occurs and in the order of the slice; it returns the slice itself
    exactly when every item satisfies [f]; filtering twice is filtering by
    both tests. *)
Theorem Filter_keeps_the_matches {T} (data : list T) (f g : T → bool) :
  Filter data f = List.filter f data ∧
  (∀ x, x ∈ Filter data f ↔ x ∈ data ∧ f x = true) ∧
  (Filter data f = data ↔ Forall (λ x, f x = true) data) ∧
  Filter (Filter data f) g = Filter data (λ x, f x && g x).
Proof.
  assert (HF : ∀ (h : T → bool) l, Filter l h = List.filter h l)
    by (intros h l; unfold Filter; by rewrite Filter_loop_spec).
  split; [apply HF|]. split; [|split].
  - intros x. rewrite HF, list_elem_of_In, List.filter_In, <- list_elem_of_In. done.
  - rewrite HF. induction data as [|x l IH]; simpl.
    + split; [constructor | done].
    + destruct (f x) eqn:Hf.
      * split.
        -- intros Heq. simplify_eq. constructor; [done | by apply IH].
        -- intros Hall. apply Forall_cons in Hall as [_ Hall]. f_equal. by apply IH.
      * split.
        -- intros Heq. exfalso.
           assert (length (List.filter f l) ≤ length l)%nat as Hle
             by apply List.filter_length_le.
           rewrite Heq in Hle. simpl in Hle. lia.
        -- intros Hall. apply Forall_cons in Hall as [Hx _]. congruence.
  - rewrite !HF. induction data as [|x l IH]; simpl; [done|].
    destruct (f x); simpl; [destruct (g x); by rewrite IH | done].
Qed.

(** ** Package utils: [Chunk] *)

Lemma slice_of_Some {T} (data : list T) (lo hi : Z) :
  0 ≤ lo ≤ hi → hi ≤ length_of data →
  slice_of data lo hi = Some (take (Z.to_nat (hi - lo)) (drop (Z.to_nat lo) data)).
Proof.
  intros Hlo Hhi. unfold slice_of.
  assert ((0 <=? lo) = true) as -> by (apply Z.leb_le; lia).
  assert ((lo <=? hi) = true) as -> by (apply Z.leb_le; lia).
  assert ((hi <=? length_of data) = true) as -> by (apply Z.leb_le; lia).
  done.
Qed.

(** The chunks that the loop adds from index [i] on. *)
Lemma Chunk_loop_spec {T} (data : list T) (size : Z) :
  0 < size → length_of data + size < int_half →
  ∀ fuel i result,
    0 ≤ i → (Z.to_nat (length_of data - i) < fuel)%nat →
    ∃ more,
      Chunk_loop fuel data size i result = Done (result ++ more) ∧
      concat more = drop (Z.to_nat i) data ∧
      Forall (λ c, 0 < length_of c ≤ size) more ∧
      (∀ k c, more !! k = Some c → (S k < length more)%nat → length_of c = size).
Proof.
  intros Hsize Hfit. unfold length_of in *.
  intros n. induction n as [|fuel IH]; intros i result Hi Hfuel; [lia|].
  cbn [Chunk_loop]. unfold length_of.
  destruct (i <? Z.of_nat (length data)) eqn:Hlt.
  - apply Z.ltb_lt in Hlt.
    assert (Hadd : int_add i size = i + size).
    { unfold int_add. apply wrap_small. unfold int_half in *. lia. }
    rewrite Hadd.
    destruct (i + size <=? Z.of_nat (length data) - 1) eqn:Hfull.
    + apply Z.leb_le in Hfull.
      rewrite slice_of_Some by (unfold length_of; lia).
      replace (i + size - i) with size by lia.
      destruct (IH (i + size) (result ++ [take (Z.to_nat size) (drop (Z.to_nat i) data)])
                  ltac:(lia) ltac:(lia)) as (more & Hrun & Hcat & Hall & Hfullc).
      exists (take (Z.to_nat size) (drop (Z.to_nat i) data) :: more).
      assert (Hlen : length (take (Z.to_nat size) (drop (Z.to_nat i) data))
                     = Z.to_nat size).
      { rewrite length_take, length_drop. lia. }
      split; [by rewrite Hrun, <- app_assoc|]. split; [|split].
      * simpl. rewrite Hcat.
        replace (Z.to_nat (i + size)) with (Z.to_nat i + Z.to_nat size)%nat by lia.
        rewrite <- drop_drop. apply take_drop.
      * constructor; [unfold length_of; rewrite Hlen; lia | done].
      * intros [|k] c Hk Hlast; simpl in *.
        -- simplify_eq. unfold length_of. rewrite Hlen. lia.
        -- apply (Hfullc k c Hk). lia.
    + apply Z.leb_gt in Hfull.
      rewrite slice_of_Some by (unfold length_of; lia).
      destruct (IH (i + size) (result ++ [take (Z.to_nat (Z.of_nat (length data) - i))
                                            (drop (Z.to_nat i) data)])
                  ltac:(lia) ltac:(lia)) as (more & Hrun & Hcat & Hall & Hfullc).
      assert (more = []) as ->.
      { rewrite drop_ge in Hcat by lia.
        destruct more as [|c more]; [done|]. exfalso.
        apply Forall_cons in Hall as [Hc _]. unfold length_of in Hc.
        simpl in Hcat. apply app_eq_nil in Hcat as [-> _]. simpl in Hc. lia. }
      rewrite take_ge in Hrun |- * by (rewrite length_drop; lia).
      exists [drop (Z.to_nat i) data].
      split; [by rewrite Hrun, app_nil_r|]. split; [|split].
      * simpl. by rewrite app_nil_r.
      * constructor; [|done]. unfold length_of. rewrite length_drop. lia.
      * intros [|k] c Hk Hlast; simpl in *; lia.
  - apply Z.ltb_ge in Hlt. exists []. split; [by rewrite app_nil_r|].
    split; [by rewrite drop_ge by lia|]. split; [done|].
    intros k c Hk. done.
Qed.

(** X16: for a size above zero (and sizes that fit in an [int]), [Chunk]
    returns, with fuel for one test per item and one more; the chunks put
    end to end are the slice; none is longer than [size], each but the last
    has exactly [size] items, and none is empty unless the slice is, in
    which case the single chunk is the empty slice. *)
Theorem Chunk_splits_in_order {T} (fuel : nat) (data : list T) (size : Z) :
  0 < size → length_of data + size < int_half → (length data < fuel)%nat →
  ∃ chunks,
    Chunk fuel data size = Done chunks ∧
    concat chunks = data ∧
    Forall (λ c, length_of c ≤ size) chunks ∧
    (∀ k c, chunks !! k = Some c → (S k < length chunks)%nat → length_of c = size) ∧
    (data ≠ [] → Forall (λ c, c ≠ []) chunks) ∧
    (data = [] → chunks = [[]]).
Proof.
  intros Hsize Hfit Hfuel. unfold Chunk.
  destruct (length_of data <=? size) eqn:Hle.
  - apply Z.leb_le in Hle. exists [data]. split; [done|].
    split; [simpl; by rewrite app_nil_r|]. split; [by repeat constructor|].
    split; [intros [|k] c Hk Hl; simpl in *; lia|].
    split; [intros Hne; by repeat constructor | by intros ->].
  - apply Z.leb_gt in Hle.
    destruct (Chunk_loop_spec data size Hsize Hfit fuel 0 [] ltac:(lia))
      as (chunks & Hrun & Hcat & Hall & Hfullc).
    { unfold length_of. lia. }
    exists chunks. split; [done|]. split; [done|]. split; [|split; [done|split]].
    + eapply Forall_impl; [done|]. intros c Hc. simpl in Hc. lia.
    + intros _. eapply Forall_impl; [done|]. intros c Hc ->.
      unfold length_of in Hc. simpl in Hc. lia.
    + intros ->. unfold length_of in Hle. simpl in Hle. lia.
Qed.

Lemma Chunk_splits_witness :
  Chunk 6 [1; 2; 3; 4; 5] 2 = Done [[1; 2]; [3; 4]; [5]].
Proof.
  destruct (Chunk_splits_in_order 6 [1; 2; 3; 4; 5] 2) as (chunks & Hrun & _).
  - lia.
  - vm_compute. reflexivity.
  - simpl. lia.
  - vm_compute. reflexivity.
Defined.

Lemma Chunk_loop_zero {T} (data : list T) (fuel : nat) : ∀ result,
  data ≠ [] → Chunk_loop fuel data 0 0 result = OutOfFuel.
Proof.
  induction fuel as [|fuel IH]; intros result Hne; [done|].
  cbn [Chunk_loop].
  assert (0 < length_of data) as Hlen
    by (unfold length_of; destruct data; [done | simpl; lia]).
  assert ((0 <? length_of data) = true) as -> by (by apply Z.ltb_lt).
  change (int_add 0 0) with 0.
  assert ((0 <=? length_of data - 1) = true) as -> by (apply Z.leb_le; lia).
  rewrite slice_of_Some by lia. by apply IH.
Qed.

(** X17: with size zero [Chunk] never returns on a slice that is not
    empty: whatever the fuel, the loop is still running, adding one empty
    chunk per round (the index does not advance). *)
Theorem Chunk_size_zero_never_returns {T} (fuel : nat) (data : list T) :
  data ≠ [] → Chunk fuel data 0 = OutOfFuel.
Proof.
  intros Hne. unfold Chunk.
  assert (0 < length_of data) as Hlen
    by (unfold length_of; destruct data; [done | simpl; lia]).
  assert ((length_of data <=? 0) = false) as -> by (apply Z.leb_gt; lia).
  by apply Chunk_loop_zero.
Qed.

Lemma Chunk_size_zero_witness : Chunk 1000 [7] 0 = OutOfFuel.
Proof. apply (Chunk_size_zero_never_returns 1000 [7]). discriminate. Defined.

(** X18: with a size below zero [Chunk] panics on a slice that is not
    empty (the first chunk would be [data[0:size]]) and returns no chunk at
    all for the empty slice, where a size of zero or more gives the one
    empty chunk. *)
Theorem Chunk_negative_size {T} (fuel : nat) (data : list T) (size : Z) :
  - int_half ≤ size < 0 →
  Chunk (S fuel) data size = (if decide (data = []) then Done [] else Panic).
Proof.
  intros Hsize. unfold Chunk.
  assert (0 ≤ length_of data) as Hlen by (unfold length_of; lia).
  assert ((length_of data <=? size) = false) as -> by (apply Z.leb_gt; lia).
  cbn [Chunk_loop]. destruct (decide (data = [])) as [->|Hne]; [done|].
  assert (0 < length_of data) as Hpos
    by (unfold length_of; destruct data; [done | simpl; lia]).
  assert ((0 <? length_of data) = true) as -> by (by apply Z.ltb_lt).
  assert (Hadd : int_add 0 size = size).
  { unfold int_add. apply wrap_small. unfold int_half in *. lia. }
  rewrite Hadd.
  assert ((size <=? length_of data - 1) = true) as -> by (apply Z.leb_le; lia).
  unfold slice_of. simpl.
  assert ((0 <=? size) = false) as -> by (apply Z.leb_gt; lia). done.
Qed.

Lemma Chunk_negative_size_witness : Chunk 1 [7] (-1) = Panic.
Proof. apply (Chunk_negative_size 0 [7] (-1)). vm_compute. split; [discriminate | reflexivity]. Defined.

(** ** Package utils: [Reverse] *)

Lemma index_of_middle {T} (pre post : list T) (x : T) :
  index_of (pre ++ x :: post) (Z.of_nat (length pre)) = Some x.
Proof.
  unfold index_of.
  assert ((0 <=? Z.of_nat (length pre)) = true) as -> by (apply Z.leb_le; lia).
  rewrite Nat2Z.id. by apply list_lookup_middle.
Qed.

(** The loop reverses the part between the two indices. *)
Lemma Reverse_loop_spec {T} : ∀ fuel (mid pre post : list T),
  (length mid < 2 * fuel)%nat →
  Reverse_loop fuel (pre ++ mid ++ post)
    (Z.of_nat (length pre)) (Z.of_nat (length pre) + Z.of_nat (length mid) - 1)
  = Done (pre ++ reverse mid ++ post).
Proof.
  intros n. induction n as [|fuel IH]; intros mid pre post Hfuel; [lia|].
  cbn [Reverse_loop].
  destruct mid as [|x mid].
  { assert ((Z.of_nat (length pre) <? Z.of_nat (length pre) + Z.of_nat (length (@nil T)) - 1) = false)
      as -> by (apply Z.ltb_ge; simpl; lia).
    done. }
  destruct mid as [|y mid _] using rev_ind.
  { assert ((Z.of_nat (length pre) <? Z.of_nat (length pre) + Z.of_nat (length [x]) - 1) = false)
      as -> by (apply Z.ltb_ge; simpl; lia).
    done. }
  assert (Hlen : length (x :: mid ++ [y]) = S (S (length mid))).
  { simpl. rewrite length_app. simpl. lia. }
  rewrite Hlen.
  assert ((Z.of_nat (length pre) <? Z.of_nat (length pre) + Z.of_nat (S (S (length mid))) - 1) = true)
    as -> by (apply Z.ltb_lt; lia).
  assert (Hshape : pre ++ (x :: mid ++ [y]) ++ post
                   = (pre ++ x :: mid) ++ y :: post).
  { simpl. rewrite <- !app_assoc. done. }
  assert (Hi : index_of (pre ++ (x :: mid ++ [y]) ++ post) (Z.of_nat (length pre))
               = Some x).
  { simpl. apply index_of_middle. }
  assert (Hj : index_of (pre ++ (x :: mid ++ [y]) ++ post)
                 (Z.of_nat (length pre) + Z.of_nat (S (S (length mid))) - 1) = Some y).
  { rewrite Hshape.
    replace (Z.of_nat (length pre) + Z.of_nat (S (S (length mid))) - 1)
      with (Z.of_nat (length (pre ++ x :: mid)))
      by (rewrite length_app; simpl; lia).
    apply index_of_middle. }
  rewrite Hi, Hj.
  assert (Hswap :
    <[Z.to_nat (Z.of_nat (length pre) + Z.of_nat (S (S (length mid))) - 1) := x]>
      (<[Z.to_nat (Z.of_nat (length pre)) := y]> (pre ++ (x :: mid ++ [y]) ++ post))
    = (pre ++ [y]) ++ mid ++ (x :: post)).
  { rewrite Nat2Z.id.
    replace (Z.to_nat (Z.of_nat (length pre) + Z.of_nat (S (S (length mid))) - 1))
      with (length (pre ++ y :: mid) + 0)%nat
      by (rewrite length_app; simpl; lia).
    replace (<[length pre := y]> (pre ++ (x :: mid ++ [y]) ++ post))
      with ((pre ++ y :: mid) ++ y :: post).
    - rewrite insert_app_r. simpl. rewrite <- !app_assoc. done.
    - replace (length pre) with (length pre + 0)%nat at 1 by lia.
      rewrite insert_app_r. simpl. rewrite <- !app_assoc. done. }
  rewrite Hswap.
  specialize (IH mid (pre ++ [y]) (x :: post) ltac:(lia)).
  rewrite length_app in IH. simpl in IH.
  replace (Z.of_nat (length pre) + 1) with (Z.of_nat (length pre + 1)) by lia.
  replace (Z.of_nat (length pre) + Z.of_nat (S (S (length mid))) - 1 - 1)
    with (Z.of_nat (length pre + 1) + Z.of_nat (length mid) - 1) by lia.
  rewrite IH. f_equal.
  rewrite reverse_cons, reverse_snoc. simpl. rewrite <- !app_assoc. done.
Qed.

(** X19: [Reverse] never indexes out of range and, with fuel for one test
    more than half the length, leaves the items in the opposite order;
    reversing what it leaves gives the slice back. *)
Theorem Reverse_reverses {T} (fuel : nat) (data : list T) :
  (length data < 2 * fuel)%nat →
  Reverse fuel data = Done (reverse data) ∧
  Reverse fuel (reverse data) = Done data.
Proof.
  intros Hfuel.
  assert (HR : ∀ l : list T, (length l < 2 * fuel)%nat →
                             Reverse fuel l = Done (reverse l)).
  { intros l Hl. unfold Reverse, length_of.
    pose proof (Reverse_loop_spec fuel l [] [] Hl) as HL.
    simpl in HL. rewrite !app_nil_r in HL. done. }
  split; [by apply HR|].
  rewrite HR by (by rewrite length_reverse). by rewrite reverse_involutive.
Qed.

Lemma Reverse_reverses_witness :
  Reverse 3 [1; 2; 3; 4; 5] = Done [5; 4; 3; 2; 1].
Proof.
  refine (proj1 (Reverse_reverses 3 [1; 2; 3; 4; 5] _)).
  simpl. lia.
Defined.

(** ** Package utils: [MapByKey] and [OnceErr] *)






Lemma SetError_done (n : OnceErr) (e : option error) :
  once_done n = true → SetError n e = n.
Proof. unfold SetError. by intros ->. Qed.

(** X22: of the calls of [SetError] on a new [OnceErr] only the first one
    counts: [Error] returns the error of the first call whatever the later
    calls pass, also when the first call passed nil. *)
Theorem SetError_first_call_wins (e : option error) (es : list (option error)) :
  Error (foldl SetError OnceErr_zero (e :: es)) = e ∧
  once_done (foldl SetError OnceErr_zero (e :: es)) = true.
Proof.
  simpl. change (SetError OnceErr_zero e) with {| err := e; once_done := true |}.
  generalize dependent e.
  induction es as [|e' es IH]; intros e; simpl; [done|].
  rewrite SetError_done by done. apply IH.
Qed.

(** ** Package utils: [LocalCache] *)

Lemma Since_mono (t1 t2 ts : Z) : t1 ≤ t2 → Since t1 ts ≤ Since t2 ts.
Proof. unfold Since. lia. Qed.

Lemma Since_exact (now ts : Z) :
  ts ≤ now → Since now ts = Z.min max_duration (now - ts).
Proof. unfold Since, min_duration, max_duration, int_half. lia. Qed.

Lemma Get_miss_later {V} (lc : LocalCache V) (t1 t2 : Z) (k : string) :
  t1 ≤ t2 → Get lc t1 k = None → Get lc t2 k = None.
Proof.
  intros Ht. unfold Get. destruct (items lc !! k) as [item|]; [|done].
  pose proof (Since_mono t1 t2 (Timestamp item) Ht).
  destruct (Since t1 (Timestamp item) <? expire lc) eqn:H1; [done|].
  apply Z.ltb_ge in H1. intros _.
  assert ((Since t2 (Timestamp item) <? expire lc) = false) as ->
    by (apply Z.ltb_ge; lia).
  done.
Qed.

Lemma Get_Set_same {V} (lc : LocalCache V) (t0 t1 : Z) (k : string) (d : V) :
  t0 ≤ t1 → expire lc ≤ max_duration →
  Get (Set_ lc t0 k d) t1 k = (if t1 - t0 <? expire lc then Some d else None).
Proof.
  intros Ht Hexp. unfold Get, Set_. simpl. rewrite lookup_insert_eq. simpl.
  rewrite (Since_exact t1 t0 Ht).
  destruct (t1 - t0 <? expire lc) eqn:Hlt.
  - apply Z.ltb_lt in Hlt.
    assert ((Z.min max_duration (t1 - t0) <? expire lc) = true) as ->
      by (apply Z.ltb_lt; lia).
    done.
  - apply Z.ltb_ge in Hlt.
    assert ((Z.min max_duration (t1 - t0) <? expire lc) = false) as ->
      by (apply Z.ltb_ge; lia).
    done.
Qed.

(** X23: what [Set] stores under a key, [Get] returns for that key while
    less than [expire] has passed since the [Set], and no longer from then
    on, nor after a [Delete] of the key or a [Clear]; the other keys are
    not touched by the [Set]. *)
Theorem Set_then_Get {V} (lc : LocalCache V) (t0 t1 : Z) (k : string) (d : V) :
  t0 ≤ t1 → expire lc ≤ max_duration →
  (Get (Set_ lc t0 k d) t1 k = Some d ↔ t1 - t0 < expire lc) ∧
  (Get (Set_ lc t0 k d) t1 k = None ↔ expire lc ≤ t1 - t0) ∧
  Get (Delete (Set_ lc t0 k d) k) t1 k = None ∧
  Get (Clear (Set_ lc t0 k d)) t1 k = None ∧
  (∀ k', k' ≠ k → Get (Set_ lc t0 k d) t1 k' = Get lc t1 k').
Proof.
  intros Ht Hexp. rewrite (Get_Set_same lc t0 t1 k d Ht Hexp).
  split; [|split; [|split; [|split]]].
  - destruct (t1 - t0 <? expire lc) eqn:Hlt.
    + apply Z.ltb_lt in Hlt. split; [lia | done].
    + apply Z.ltb_ge in Hlt. split; [done | lia].
  - destruct (t1 - t0 <? expire lc) eqn:Hlt.
    + apply Z.ltb_lt in Hlt. split; [done | lia].
    + apply Z.ltb_ge in Hlt. split; [lia | done].
  - unfold Get, Delete. simpl. by rewrite lookup_delete_eq.
  - unfold Get, Clear. simpl. by rewrite lookup_empty.
  - intros k' Hne. unfold Get, Set_. simpl. by rewrite lookup_insert_ne.
Qed.

Lemma Set_then_Get_witness :
  Get (Set_ (NewLocalCache 100) 10 "k" 7) 50 "k" = Some 7 ∧
  Get (Set_ (NewLocalCache 100) 10 "k" 7) 110 "k" = None.
Proof.
  split.
  - refine (proj2 (proj1 (Set_then_Get (NewLocalCache 100) 10 50 "k" 7 _ _)) _).
    + lia.
    + vm_compute. discriminate.
    + simpl. lia.
  - refine (proj2 (proj1 (proj2 (Set_then_Get (NewLocalCache 100) 10 110 "k" 7 _ _))) _).
    + lia.
    + vm_compute. discriminate.
    + simpl. lia.
Defined.

(** X24: time alone never brings an entry back: a key that [Get] misses
    is missed at every later reading of the clock, as long as the cache
    is not written. *)
Theorem Get_miss_stays_miss {V} (lc : LocalCache V) (t1 t2 : Z) (k : string) :
  t1 ≤ t2 → Get lc t1 k = None → Get lc t2 k = None.
Proof.
  intros Ht. unfold Get. destruct (items lc !! k) as [item|]; [|done].
  destruct (Since t1 (Timestamp item) <? expire lc) eqn:Hold; [done|].
  intros _. apply Z.ltb_ge in Hold.
  pose proof (Since_mono t1 t2 (Timestamp item) Ht) as Hmono.
  destruct (Since t2 (Timestamp item) <? expire lc) eqn:Hnew; [|done].
  apply Z.ltb_lt in Hnew. lia.
Qed.

Lemma Get_miss_stays_miss_witness :
  Get (Set_ (NewLocalCache 100) 10 "k" 7) 500 "k" = None.
Proof.
  apply (Get_miss_stays_miss (Set_ (NewLocalCache 100) 10 "k" 7) 110 500 "k").
  - lia.
  - vm_compute. reflexivity.
Defined.

(** X25: a cache whose [expire] is zero or less never returns anything:
    with no entry stamped later than the clock reads, every [Get] misses
    and every [GetOrSet] calls [fn]; writing the cache keeps it so. *)
Theorem nonpositive_expire_never_hits {V} (lc : LocalCache V) (now : Z) :
  expire lc ≤ 0 →
  (∀ k item, items lc !! k = Some item → Timestamp item ≤ now) →
  (∀ k, Get lc now k = None) ∧
  (∀ k now' fn, fn_called (GetOrSet lc now now' k fn) = true) ∧
  (∀ k d later, now ≤ later → ∀ k', Get (Set_ lc now k d) later k' = None).
Proof.
  intros Hexp Hstamps.
  assert (Hmiss : ∀ (c : LocalCache V) t,
            expire c ≤ 0 →
            (∀ k item, items c !! k = Some item → Timestamp item ≤ t) →
            ∀ k, Get c t k = None).
  { intros c t Hc Hs k. unfold Get.
    destruct (items c !! k) as [item|] eqn:Hk; [|done].
    specialize (Hs k item Hk). rewrite (Since_exact _ _ Hs).
    assert ((Z.min max_duration (t - Timestamp item) <? expire c) = false) as ->
      by (apply Z.ltb_ge; unfold max_duration, int_half; lia).
    done. }
  split; [by apply Hmiss|]. split.
  - intros k now' fn. unfold GetOrSet. rewrite (Hmiss lc now Hexp Hstamps k).
    by destruct fn as [data [e|]].
  - intros k d later Hlater k'. apply Hmiss; [done|].
    intros k0 item. unfold Set_. simpl.
    destruct (decide (k0 = k)) as [->|Hne].
    + rewrite lookup_insert_eq. intros [= <-]. simpl. lia.
    + rewrite lookup_insert_ne by done. intros Hk.
      specialize (Hstamps k0 item Hk). lia.
Qed.

Lemma nonpositive_expire_witness :
  Get (Set_ (NewLocalCache 0) 10 "k" 7) 10 "k" = None.
Proof.
  refine (proj1 (nonpositive_expire_never_hits (Set_ (NewLocalCache 0) 10 "k" 7) 10 _ _) "k").
  - simpl. lia.
  - intros k item. unfold Set_, NewLocalCache. simpl.
    destruct (decide (k = "k")) as [->|Hne].
    + rewrite lookup_insert_eq. intros [= <-]. simpl. lia.
    + rewrite lookup_insert_ne by done. rewrite lookup_empty. discriminate.
Defined.

(** X26: when [Get] misses and [fn] returns data and no error, [GetOrSet]
    calls [fn] once, returns its data with [false] and stores it; a
    [GetOrSet] for the same key while less than [expire] has passed since
    then returns that data with [true], does not call its [fn] and leaves
    the cache as it is. *)
Theorem GetOrSet_fills_the_cache {V} (lc : LocalCache V) (now now' later later' : Z)
    (k : string) (data : V) (fn' : V * option error) :
  Get lc now k = None →
  now' ≤ later → later - now' < expire lc → expire lc ≤ max_duration →
  GetOrSet lc now now' k (data, None)
  = {| value := Some data; found := false; failure := None; fn_called := true;
       cache := Set_ lc now' k data |} ∧
  GetOrSet (Set_ lc now' k data) later later' k fn'
  = {| value := Some data; found := true; failure := None; fn_called := false;
       cache := Set_ lc now' k data |}.
Proof.
  intros Hmiss Ht Hwin Hexp. split.
  - unfold GetOrSet. by rewrite Hmiss.
  - unfold GetOrSet.
    rewrite (Get_Set_same lc now' later k data Ht Hexp).
    assert ((later - now' <? expire lc) = true) as -> by (by apply Z.ltb_lt).
    done.
Qed.

Lemma GetOrSet_fills_witness :
  fn_called (GetOrSet (Set_ (NewLocalCache 100) 10 "k" 7) 50 60 "k" (8, None)) = false.
Proof.
  pose proof (GetOrSet_fills_the_cache (NewLocalCache 100) 5 10 50 60 "k" 7 (8, None))
    as Hfill.
  destruct Hfill as [_ ->].
  - vm_compute. reflexivity.
  - lia.
  - simpl. lia.
  - vm_compute. discriminate.
  - reflexivity.
Defined.

(** X27: when [Get] misses and [fn] returns an error, [GetOrSet] returns
    nil, [false] and that error, whatever data [fn] returned with it, and
    stores nothing: a later [GetOrSet] for the key calls [fn] again. *)
Theorem GetOrSet_does_not_store_a_failure {V} (lc : LocalCache V)
    (now now' later later' : Z) (k : string) (data : V) (e : error)
    (fn' : V * option error) :
  Get lc now k = None → now ≤ later →
  GetOrSet lc now now' k (data, Some e)
  = {| value := None; found := false; failure := Some e; fn_called := true;
       cache := lc |} ∧
  fn_called (GetOrSet (cache (GetOrSet lc now now' k (data, Some e)))
               later later' k fn') = true.
Proof.
  intros Hmiss Ht.
  assert (Hfirst : GetOrSet lc now now' k (data, Some e)
                   = {| value := None; found := false; failure := Some e;
                        fn_called := true; cache := lc |}).
  { unfold GetOrSet. by rewrite Hmiss. }
  split; [done|]. rewrite Hfirst. simpl.
  unfold GetOrSet. rewrite (Get_miss_later lc now later k Ht Hmiss).
  by destruct fn' as [d [e'|]].
Qed.

Lemma GetOrSet_failure_witness :
  cache (GetOrSet (NewLocalCache 100) 5 10 "k" (7, Some "E")) = NewLocalCache 100.
Proof.
  pose proof (GetOrSet_does_not_store_a_failure (NewLocalCache 100) 5 10 20 30 "k" 7 "E"
                (8, None)) as Hfail.
  destruct Hfail as [-> _].
  - vm_compute. reflexivity.
  - lia.
  - reflexivity.
Defined.

(** ** Package logger *)

Local Ltac cfg_prop :=
  repeat match goal with
         | H : (_ =? _) = true |- _ => apply Z.eqb_eq in H
         | H : (_ =? _) = false |- _ => apply Z.eqb_neq in H
         | H : (_ <=? _) = true |- _ => apply Z.leb_le in H
         | H : (_ <=? _) = false |- _ => apply Z.leb_gt in H
         end.

(** X28: [SetDefaults] fills exactly the fields that are unset: an empty
    [RotateRule] becomes ["1hour"], a zero [MaxFileNum] 48, a zero
    [BufferSize] 4096 and a [FlushDuration] of zero or less 1000; every
    other value is kept, negative numbers included, and so are [FileName],
    [WriterTimeout], [Level] and the writer.  Afterwards none of the four
    fields is unset, so applying it again changes nothing; and it does not
    change what [Validate] answers. *)
Theorem SetDefaults_fills_unset_fields {W} (c : logger.Config W) :
  (logger.FileName (logger.SetDefaults c) = logger.FileName c ∧
   logger.WriterTimeout (logger.SetDefaults c) = logger.WriterTimeout c ∧
   logger.Level (logger.SetDefaults c) = logger.Level c ∧
   logger.writer (logger.SetDefaults c) = logger.writer c) ∧
  ((logger.RotateRule c = "" → logger.RotateRule (logger.SetDefaults c) = "1hour") ∧
   (logger.MaxFileNum c = 0 → logger.MaxFileNum (logger.SetDefaults c) = 48) ∧
   (logger.BufferSize c = 0 → logger.BufferSize (logger.SetDefaults c) = 4096) ∧
   (logger.FlushDuration c ≤ 0 →
    logger.FlushDuration (logger.SetDefaults c) = 1000)) ∧
  ((logger.RotateRule c ≠ "" →
    logger.RotateRule (logger.SetDefaults c) = logger.RotateRule c) ∧
   (logger.MaxFileNum c ≠ 0 →
    logger.MaxFileNum (logger.SetDefaults c) = logger.MaxFileNum c) ∧
   (logger.BufferSize c ≠ 0 →
    logger.BufferSize (logger.SetDefaults c) = logger.BufferSize c) ∧
   (0 < logger.FlushDuration c →
    logger.FlushDuration (logger.SetDefaults c) = logger.FlushDuration c)) ∧
  (logger.RotateRule (logger.SetDefaults c) ≠ "" ∧
   logger.MaxFileNum (logger.SetDefaults c) ≠ 0 ∧
   logger.BufferSize (logger.SetDefaults c) ≠ 0 ∧
   0 < logger.FlushDuration (logger.SetDefaults c)) ∧
  logger.SetDefaults (logger.SetDefaults c) = logger.SetDefaults c ∧
  logger.Validate (logger.SetDefaults c) = logger.Validate c.
Proof.
  destruct c as [fn rr mf bs wt fd lv w].
  unfold logger.SetDefaults, logger.Validate. simpl.
  split_and!; try f_equal;
    repeat (case_bool_decide || case_match); intros; cfg_prop;
    simplify_eq; try done; try lia.
Qed.

Lemma handler_Enabled_existsb {C R} (hs : list (slog.Handler C R)) (ctx : C) (lvl : Z) :
  handler.Enabled hs ctx lvl = existsb (λ h, slog.Enabled h ctx lvl) hs.
Proof.
  induction hs as [|h hs IH]; simpl; [done|].
  destruct (slog.Enabled h ctx lvl); [done | by rewrite IH].
Qed.

Lemma logger_Enabled_existsb {C R} (hs : list (slog.Handler C R)) (ctx : C) (lvl : Z) :
  logger.Enabled hs ctx lvl = existsb (λ h, slog.Enabled h ctx lvl) hs.
Proof.
  induction hs as [|h hs IH]; simpl; [done|].
  destruct (slog.Enabled h ctx lvl); [done | by rewrite IH].
Qed.

Lemma filter_none_enabled {C R} (hs : list (slog.Handler C R)) (ctx : C) (lvl : Z) :
  existsb (λ h, slog.Enabled h ctx lvl) hs = false →
  List.filter (λ h, slog.Enabled h ctx lvl) hs = [].
Proof.
  induction hs as [|h hs IH]; simpl; [done|].
  destruct (slog.Enabled h ctx lvl); [done | by apply IH].
Qed.

Lemma handler_Handle_spec {C R} (record_level : R → Z) (hs : list (slog.Handler C R)) (ctx : C) (r : R) :
  match handler.Handle record_level hs ctx r with
  | (called, None) =>
      called = List.filter (λ h, slog.Enabled h ctx (record_level r)) hs ∧
      Forall (λ h, slog.Handle h ctx r = None) called
  | (called, Some err) =>
      ∃ pre h post,
        hs = pre ++ h :: post ∧
        slog.Enabled h ctx (record_level r) = true ∧
        slog.Handle h ctx r = Some err ∧
        called = List.filter (λ h, slog.Enabled h ctx (record_level r)) pre ++ [h] ∧
        Forall (λ h, slog.Handle h ctx r = None)
          (List.filter (λ h, slog.Enabled h ctx (record_level r)) pre)
  end.
Proof.
  induction hs as [|h hs IH]; simpl; [by split|].
  destruct (slog.Enabled h ctx (record_level r)) eqn:Hen.
  - destruct (slog.Handle h ctx r) as [err|] eqn:Hh.
    + exists [], h, hs. simpl. by split_and!.
    + destruct (handler.Handle record_level hs ctx r) as [called [err|]].
      * destruct IH as (pre & h' & post & -> & Hen' & Hh' & -> & Hall).
        exists (h :: pre), h', post. simpl. rewrite Hen. simpl.
        split_and!; try done. by constructor.
      * destruct IH as [-> Hall]. split; [done | by constructor].
  - destruct (handler.Handle record_level hs ctx r) as [called [err|]].
    + destruct IH as (pre & h' & post & -> & Hen' & Hh' & -> & Hall).
      exists (h :: pre), h', post. simpl. rewrite Hen. by split_and!.
    + done.
Qed.

Lemma logger_Handle_loop_spec {C R} (record_level : R → Z) (ctx : C) (r : R) :
  ∀ (hs called : list (slog.Handler C R)) (errs : list error),
    logger.Handle_loop record_level called errs hs ctx r
    = (called ++ List.filter (λ h, slog.Enabled h ctx (record_level r)) hs,
       errs ++ omap (λ h, slog.Handle h ctx r)
                 (List.filter (λ h, slog.Enabled h ctx (record_level r)) hs)).
Proof.
  induction hs as [|h hs IH]; intros called errs; simpl.
  - by rewrite !app_nil_r.
  - destruct (slog.Enabled h ctx (record_level r)) eqn:Hen; [|apply IH].
    csimpl. destruct (slog.Handle h ctx r) as [err|] eqn:Hh; rewrite IH;
      simpl; by rewrite <- !app_assoc.
Qed.

(** X29: [Handle] of handler.MultiHandler stops at the first handler
    that fails: it calls the enabled handlers in order, returns the first
    error one of them returns, and calls no handler after that one, so an
    enabled handler behind a failing one does not get the record; it
    returns nil when every enabled handler was called and returned nil,
    and calls nothing when [Enabled] is false. *)
Theorem MultiHandler_stops_at_first_error {C R} (record_level : R → Z)
    (hs : list (slog.Handler C R)) (ctx : C) (r : R) :
  match handler.Handle record_level hs ctx r with
  | (called, None) =>
      called = List.filter (λ h, slog.Enabled h ctx (record_level r)) hs ∧
      Forall (λ h, slog.Handle h ctx r = None) called ∧
      (handler.Enabled hs ctx (record_level r) = false → called = [])
  | (called, Some err) =>
      handler.Enabled hs ctx (record_level r) = true ∧
      ∃ pre h post,
        hs = pre ++ h :: post ∧
        slog.Enabled h ctx (record_level r) = true ∧
        slog.Handle h ctx r = Some err ∧
        called = List.filter (λ h, slog.Enabled h ctx (record_level r)) pre ++ [h] ∧
        Forall (λ h, slog.Handle h ctx r = None)
          (List.filter (λ h, slog.Enabled h ctx (record_level r)) pre)
  end.
Proof.
  pose proof (handler_Handle_spec record_level hs ctx r) as Hspec.
  destruct (handler.Handle record_level hs ctx r) as [called [err|]].
  - split; [|done]. destruct Hspec as (pre & h & post & -> & Hen & _).
    rewrite handler_Enabled_existsb. apply existsb_exists.
    exists h. split; [|done]. apply in_or_app. right. by left.
  - destruct Hspec as [-> Hall]. split_and!; [done | done |].
    rewrite handler_Enabled_existsb. apply filter_none_enabled.
Qed.

(** X30: [Handle] of logger.multiHandler calls every enabled handler,
    once and in order, whatever the earlier ones return; it returns nil
    exactly when none of them returns an error, and otherwise one error
    whose message lists the errors in the order of the handlers; it
    calls nothing and returns nil when [Enabled] is false. *)
Theorem multiHandler_calls_every_enabled_handler {C R} (record_level : R → Z)
    (hs : list (slog.Handler C R)) (ctx : C) (r : R) :
  let enabled := List.filter (λ h, slog.Enabled h ctx (record_level r)) hs in
  let errs := omap (λ h, slog.Handle h ctx r) enabled in
  (logger.Handle record_level hs ctx r).1 = enabled ∧
  ((logger.Handle record_level hs ctx r).2 = None ↔
   Forall (λ h, slog.Handle h ctx r = None) enabled) ∧
  (errs ≠ [] →
   (logger.Handle record_level hs ctx r).2
   = Some ("multi handler errors: [" +:+ String.concat " " errs +:+ "]")) ∧
  (logger.Enabled hs ctx (record_level r) = false →
   logger.Handle record_level hs ctx r = ([], None)).
Proof.
  intros enabled errs. unfold logger.Handle.
  rewrite logger_Handle_loop_spec. simpl. fold enabled. fold errs.
  assert (Hnil : errs = [] ↔ Forall (λ h, slog.Handle h ctx r = None) enabled).
  { unfold errs. clear. induction enabled as [|h l IH]; csimpl.
    - split; [constructor | done].
    - destruct (slog.Handle h ctx r) as [err|] eqn:Hh; csimpl.
      + split; [done|]. intros Hall. apply Forall_cons in Hall as [Hx _]. congruence.
      + rewrite IH. split; [by constructor|].
        intros Hall. by apply Forall_cons in Hall as [_ Hall]. }
  split; [done|]. split; [|split].
  - rewrite <- Hnil. destruct errs as [|e l]; [done|]. simpl.
    split; [done | discriminate].
  - intros Hne. destruct errs as [|e l]; [done|]. done.
  - intros Hoff. rewrite logger_Enabled_existsb in Hoff.
    assert (enabled = []) as Hen by (by apply filter_none_enabled).
    unfold errs. rewrite Hen. done.
Qed.
